(** * themekit [env] package: the configuration store of [src/env/conf.go]

    A shallow embedding of [conf.go] and the properties of its
    specification.  Go maps and [*Env] pointers are reference types, so the
    store is embedded over an explicit heap; the file system holds its nodes
    by place and resolves path names to places. *)

From Stdlib Require Import ZArith Ascii String.
From stdpp Require Import gmap strings list fin_maps.

Local Open Scope string_scope.
Local Open Scope Z_scope.

(** ** Errors

    Go's [error] values.  [nil] is [None] of [option error]. *)

Inductive Errno := ENOENT | EISDIR | ENOTDIR.

Inductive error :=
  | ErrEnvDoesNotExist
  | ErrEnvNotDefined
  | ErrNoEnvironmentsDefined
  | ErrInvalidEnvironmentName
  | os_ErrNotExist
  | PathError (op path : string) (errno : Errno)
  | Errorf (msg : string)
  | LibraryError (msg : string).

(** [err.Error()]: the messages are those of [conf.go] lines 20-26, of
    package [os], the formatted text of a [fmt.Errorf], and the message of
    an error made by a codec library. *)
Definition Error (e : error) : string :=
  match e with
  | ErrEnvDoesNotExist => "environment does not exist in this environments list"
  | ErrEnvNotDefined => "environment was found but not defined"
  | ErrNoEnvironmentsDefined => "no environments defined, nothing to write"
  | ErrInvalidEnvironmentName => "environment name cannot be blank"
  | os_ErrNotExist => "file does not exist"
  | PathError op path ENOENT => op ++ " " ++ path ++ ": no such file or directory"
  | PathError op path EISDIR => op ++ " " ++ path ++ ": is a directory"
  | PathError op path ENOTDIR => op ++ " " ++ path ++ ": not a directory"
  | Errorf msg => msg
  | LibraryError msg => msg
  end.

(** [os.IsNotExist]. *)
Definition os_IsNotExist (e : error) : bool :=
  match e with
  | os_ErrNotExist | PathError _ _ ENOENT => true
  | _ => false
  end.

Global Instance Errno_eq_dec : EqDecision Errno.
Proof. solve_decision. Defined.
Global Instance error_eq_dec : EqDecision error.
Proof. solve_decision. Defined.

(** ** Env *)

(** Modelled from the spec: the declaration of [Env] is not part of
    [conf.go].  The spec (section 3) gives an Env the fields [Directory]
    (a path string) and [Timeout] (a duration, an integer); these are also
    the two fields [conf.go] reads and writes (lines 136-141).  A field is
    unset when it holds the zero value of its type. *)
Record Env := mkEnv { Directory : string; Timeout : Z }.

Global Instance Env_eq_dec : EqDecision Env.
Proof. solve_decision. Defined.

(** The zero value [Env{}]. *)
Definition Env_zero : Env := {| Directory := ""; Timeout := 0 |}.
Global Instance Env_inhabited : Inhabited Env := populate Env_zero.

(** An optional field value is taken over when it is set. *)
Definition pick {A} `{EqDecision A} (zero acc new : A) : A :=
  if decide (new = zero) then acc else new.

(** Modelled from the spec: one step of the merge rule of section 4.1, "a
    later override's set field replaces the accumulated value; an unset field
    in an override leaves the accumulated value untouched". *)
Definition override (acc o : Env) : Env :=
  {| Directory := pick "" (Directory acc) (Directory o);
     Timeout := pick 0 (Timeout acc) (Timeout o) |}.

(** Modelled from the spec: "After all overrides are folded in, any field
    still at zero value is filled from the static Default Env". *)
Definition fill_defaults (Default acc : Env) : Env :=
  {| Directory := pick "" (Directory Default) (Directory acc);
     Timeout := pick 0 (Timeout Default) (Timeout acc) |}.

(** Modelled from the spec: the merge operation [mergeEnv(name, base,
    overrides...)] of section 4.1 ([newEnv] in [conf.go], whose body is not
    part of the file): the name must be non-empty, the overrides are applied
    in argument order on top of the base, and the defaults fill what is left
    unset. *)
Definition mergeEnv (Default : Env) (name : string) (base : Env)
    (overrides : list Env) : Env + error :=
  if decide (name = "") then inr ErrInvalidEnvironmentName
  else inl (fill_defaults Default (foldl override base overrides)).

(** The precedence of property 1 of the spec, written after its words: the
    value of the last override that set the field (scanning from last to
    first), else the base's value if set, else the default's. *)
Definition precedence {A} `{EqDecision A} (zero default base : A)
    (overrides : list A) : A :=
  match List.find (λ v, bool_decide (v ≠ zero)) (rev overrides) with
  | Some v => v
  | None => if decide (base = zero) then default else base
  end.

(** ** Package [strings] and [path/filepath] (Unix)

    The functions of Go's library that [searchConfigPath] calls, written
    after their Go bodies with the loops over byte indices kept.  The volume
    name is empty on Unix. *)

Definition IsPathSeparator (c : ascii) : bool := Ascii.eqb c "/"%char.

(** [path[i]] is a separator ([false] out of range) *)
Definition sep_at (path : string) (i : nat) : bool :=
  match String.get i path with
  | Some c => IsPathSeparator c
  | None => false
  end.

Definition dot_at (path : string) (i : nat) : bool :=
  match String.get i path with
  | Some c => Ascii.eqb c "."%char
  | None => false
  end.

(** [path[i:]] *)
Definition slice_from (i : nat) (path : string) : string :=
  substring i (String.length path - i) path.

(** [strings.Join(elems, sep)] *)
Fixpoint strings_Join (elems : list string) (sep : string) : string :=
  match elems with
  | [] => ""
  | [e] => e
  | e :: rest => e ++ sep ++ strings_Join rest sep
  end.

(** [filepath.Ext]: [for i := len(path)-1; i >= 0 && !sep(path[i]); i--],
    returning [path[i:]] at the first dot met; [k] is [i+1]. *)
Fixpoint Ext_loop (path : string) (k : nat) : string :=
  match k with
  | O => ""
  | S i =>
      if sep_at path i then ""
      else if dot_at path i then slice_from i path
      else Ext_loop path i
  end.

Definition filepath_Ext (path : string) : string :=
  Ext_loop path (String.length path).

(** The index after the last separator among the first [k] bytes, [0] when
    there is none: [i := k-1; for i >= 0 && !sep(path[i]) { i-- }] gives
    [i+1]. *)
Fixpoint after_last_sep (path : string) (k : nat) : nat :=
  match k with
  | O => O
  | S i => if sep_at path i then S i else after_last_sep path i
  end.

(** [for len(path) > 0 && sep(path[len(path)-1]) { path = path[:len(path)-1] }]
    on the first [k] bytes. *)
Fixpoint strip_trailing_seps (path : string) (k : nat) : string :=
  match k with
  | O => ""
  | S i => if sep_at path i then strip_trailing_seps path i
           else substring 0 (S i) path
  end.

(** [filepath.Base] *)
Definition filepath_Base (path : string) : string :=
  if decide (path = "") then "."
  else
    let path := strip_trailing_seps path (String.length path) in
    let path := slice_from (after_last_sep path (String.length path)) path in
    if decide (path = "") then "/" else path.

(** The [..] case of [Clean] when it can backtrack: [out.w--] and then
    [for out.w > dotdot && !sep(out.index(out.w)) { out.w-- }]; [w] is the
    buffer length still to examine. *)
Fixpoint backtrack_loop (out : string) (dotdot w : nat) : nat :=
  match w with
  | O => O
  | S w' =>
      if (dotdot <? w)%nat && negb (sep_at out w) then backtrack_loop out dotdot w'
      else w
  end.

Definition backtrack (out : string) (dotdot : nat) : string :=
  substring 0 (backtrack_loop out dotdot (String.length out - 1)) out.

(** The end of the path element that starts at [r]:
    [for ; r < n && !sep(path[r]); r++]. *)
Fixpoint element_end (fuel : nat) (path : string) (r : nat) : nat :=
  match fuel with
  | O => r
  | S fuel' =>
      if (r <? String.length path)%nat && negb (sep_at path r)
      then element_end fuel' path (S r)
      else r
  end.

(** The main loop of [filepath.Clean], [for r < n { switch ... }], over the
    read index [r], the output buffer [out] and the index [dotdot] where a
    [..] must stop.  Every turn advances [r], so [n] turns of fuel reach the
    end. *)
Fixpoint Clean_loop (fuel : nat) (path : string) (rooted : bool)
    (r : nat) (out : string) (dotdot : nat) : string :=
  let n := String.length path in
  match fuel with
  | O => out
  | S fuel' =>
      if negb (r <? n)%nat then out
      else if sep_at path r then
        (* empty path element *)
        Clean_loop fuel' path rooted (r + 1) out dotdot
      else if dot_at path r && ((r + 1 =? n)%nat || sep_at path (r + 1)) then
        (* . element *)
        Clean_loop fuel' path rooted (r + 1) out dotdot
      else if dot_at path r && dot_at path (r + 1)
              && ((r + 2 =? n)%nat || sep_at path (r + 2)) then
        (* .. element: remove to last separator *)
        if (dotdot <? String.length out)%nat then
          Clean_loop fuel' path rooted (r + 2) (backtrack out dotdot) dotdot
        else if negb rooted then
          let out := if (0 <? String.length out)%nat then out ++ "/" else out in
          let out := out ++ ".." in
          Clean_loop fuel' path rooted (r + 2) out (String.length out)
        else Clean_loop fuel' path rooted (r + 2) out dotdot
      else
        (* real path element: add slash if needed, copy element *)
        let w := String.length out in
        let out :=
          if (rooted && negb (w =? 1)%nat) || (negb rooted && negb (w =? 0)%nat)
          then out ++ "/" else out in
        let r' := element_end n path r in
        Clean_loop fuel' path rooted r' (out ++ substring r (r' - r) path) dotdot
  end.

(** [filepath.Clean] *)
Definition filepath_Clean (path : string) : string :=
  if decide (path = "") then "."
  else
    let rooted := sep_at path 0 in
    let n := String.length path in
    let out :=
      if rooted then Clean_loop n path rooted 1 "/" 1
      else Clean_loop n path rooted 0 "" 0 in
    (* Turn empty string into "." *)
    if decide (out = "") then "." else out.

(** [filepath.Dir] *)
Definition filepath_Dir (path : string) : string :=
  filepath_Clean (substring 0 (after_last_sep path (String.length path)) path).

(** [filepath.Join]: the elements from the first non-empty one on, joined
    by the separator and cleaned. *)
Fixpoint filepath_Join (elem : list string) : string :=
  match elem with
  | [] => ""
  | e :: rest =>
      if decide (e = "") then filepath_Join rest
      else filepath_Clean (strings_Join (e :: rest) "/")
  end.

(** ** The world: heap, file system, process environment *)

Definition loc := positive.

(** *** The file system

    A node is a regular file with its contents or a directory. *)
Inductive Node :=
  | RegularFile (contents : string)
  | DirectoryNode.

Global Instance Node_eq_dec : EqDecision Node.
Proof. solve_decision. Defined.

(** The elements of a path name: what stands between its separators. *)
Fixpoint path_elements (s : string) : list string :=
  match s with
  | EmptyString => [""]
  | String c t =>
      if IsPathSeparator c then "" :: path_elements t
      else match path_elements t with
           | e :: es => String c e :: es
           | [] => [String c ""]
           end
  end.

(** The nodes of the file system, each under its place, the list of names
    that leads to it from the root, and the place of the working directory.
    The root is a directory.  There are no symbolic links and no access
    control: the process may search every directory and write every file. *)
Record FileSystem := mkFileSystem {
  nodes : gmap (list string) Node;
  cwd : list string;
}.

Definition node (fs : FileSystem) (k : list string) : option Node :=
  if decide (k = []) then Some DirectoryNode else nodes fs !! k.

(** One element of a path name, followed from the place [cur]: an empty
    element and [.] stay, [..] goes to the parent (the root is its own
    parent), a name goes to the entry of that name. *)
Definition enter (cur : list string) (e : string) : list string :=
  if decide (e = "") then cur
  else if decide (e = ".") then cur
  else if decide (e = "..") then removelast cur
  else (cur ++ [e])%list.

(** Path resolution from the place [cur]: every element is looked up in a
    directory, so what was reached before it must be one ([ENOTDIR] for a
    regular file, [ENOENT] for nothing); the place that the last element
    leads to need not hold a node. *)
Fixpoint walk (fs : FileSystem) (cur : list string) (elems : list string)
    : list string + Errno :=
  match elems with
  | [] => inl cur
  | e :: rest =>
      match node fs cur with
      | Some DirectoryNode => walk fs (enter cur e) rest
      | Some (RegularFile _) => inr ENOTDIR
      | None => inr ENOENT
      end
  end.

(** The place a path name leads to: from the root for a name that begins
    with a separator, from the working directory otherwise; the empty name
    leads nowhere. *)
Definition namei (fs : FileSystem) (name : string) : list string + Errno :=
  if decide (name = "") then inr ENOENT
  else walk fs (if sep_at name 0 then [] else cwd fs) (path_elements name).

(** The error number of a name at which there is no node. *)
Definition errno (fs : FileSystem) (name : string) : Errno :=
  match namei fs name with
  | inl _ => ENOENT
  | inr e => e
  end.

(** [fs !! name] is the node that the name leads to. *)
Global Instance FileSystem_lookup : Lookup string Node FileSystem :=
  λ name fs,
    match namei fs name with
    | inl k => node fs k
    | inr _ => None
    end.

(** [<[name := n]> fs] puts the node [n] at the place that the name leads
    to. *)
Global Instance FileSystem_insert : Insert string Node FileSystem :=
  λ name n fs,
    match namei fs name with
    | inl k => {| nodes := <[k := n]> (nodes fs); cwd := cwd fs |}
    | inr _ => fs
    end.

(** [maps] holds the [map[string]*Env] objects and [envs] the [Env] objects
    that [*Env] pointers refer to ([None] is the nil pointer); [environ] is
    the [Env] that [env.Parse] binds from the process environment
    variables.  A map reference that [maps] does not hold is the nil map:
    it reads as the empty map, and an assignment to an entry of it
    panics. *)
Record World := mkWorld {
  maps : gmap loc (gmap string (option loc));
  envs : gmap loc Env;
  files : FileSystem;
  environ : Env;
}.

Definition set_maps (f : gmap loc (gmap string (option loc)) → gmap loc (gmap string (option loc)))
    (σ : World) : World :=
  {| maps := f (maps σ); envs := envs σ; files := files σ; environ := environ σ |}.
Definition set_envs (f : gmap loc Env → gmap loc Env) (σ : World) : World :=
  {| maps := maps σ; envs := f (envs σ); files := files σ; environ := environ σ |}.
Definition set_files (f : FileSystem → FileSystem) (σ : World) : World :=
  {| maps := maps σ; envs := envs σ; files := f (files σ); environ := environ σ |}.

(** Computations that read and update the world. *)
Definition M (A : Type) : Type := World → A * World.

Global Instance M_ret : MRet M := λ A x σ, (x, σ).
Global Instance M_bind : MBind M := λ A B f m σ, let '(x, σ') := m σ in f x σ'.

Definition gets {A} (f : World → A) : M A := λ σ, (f σ, σ).
Definition modify (f : World → World) : M unit := λ σ, (tt, f σ).

(** How a call ends: it returns, or the run-time system panics. *)
Inductive outcome (A : Type) :=
  | Returned (a : A)
  | Panicked (msg : string).
Global Arguments Returned {A} a.
Global Arguments Panicked {A} msg.

(** [for _, x := range xs { body }] over a list in a given order. *)
Fixpoint forM_ {A} (xs : list A) (body : A → M unit) : M unit :=
  match xs with
  | [] => mret tt
  | x :: rest => body x ;; forM_ rest body
  end.

(** The same with a loop-carried variable. *)
Fixpoint foldM {A B} (xs : list A) (acc : B) (body : B → A → M B) : M B :=
  match xs with
  | [] => mret acc
  | x :: rest => acc' ← body acc x; foldM rest acc' body
  end.

(** *** Heap primitives *)

(** [make(map[string]*Env)] *)
Definition map_make : M loc := λ σ,
  let l := fresh (dom (maps σ)) in (l, set_maps <[l := ∅]> σ).

(** The contents of the map object at [l]. *)
Definition map_get (l : loc) : M (gmap string (option loc)) :=
  gets (λ σ, maps σ !!! l).

(** [m[k] = p] on a map object; a decoder that is given the address of a
    nil map makes the object. *)
Definition map_store (l : loc) (k : string) (p : option loc) : M unit :=
  modify (set_maps (λ h, <[l := <[k := p]> (h !!! l)]> h)).

(** [delete(m, k)], for a key that [range] found in [m] *)
Definition map_delete (l : loc) (k : string) : M unit :=
  modify (set_maps (λ h, <[l := delete k (h !!! l)]> h)).

(** [&Env{...}]: a new [Env] object *)
Definition env_alloc (e : Env) : M loc := λ σ,
  let l := fresh (dom (envs σ)) in (l, set_envs <[l := e]> σ).

(** [*p] *)
Definition env_load (l : loc) : M Env := gets (λ σ, envs σ !!! l).

(** [*p = e] *)
Definition env_store (l : loc) (e : Env) : M unit :=
  modify (set_envs <[l := e]>).

(** What a map object holds once its pointers are followed. *)
Definition deref (σ : World) (p : option loc) : option Env :=
  match p with
  | None => None
  | Some l => Some (envs σ !!! l)
  end.

Definition view (σ : World) (l : loc) : gmap string (option Env) :=
  deref σ <$> (maps σ !!! l).

(** *** Package [os] and [io/ioutil] *)

(** [os.Stat]: only whether it fails matters to the caller. *)
Definition os_Stat (name : string) : M (option Node * option error) :=
  gets (λ σ, match files σ !! name with
             | Some n => (Some n, None)
             | None => (None, Some (PathError "stat" name (errno (files σ) name)))
             end).

(** [ioutil.ReadFile] *)
Definition ioutil_ReadFile (name : string) : M (string * option error) :=
  gets (λ σ, match files σ !! name with
             | Some (RegularFile contents) => (contents, None)
             | Some DirectoryNode => ("", Some (PathError "read" name EISDIR))
             | None => ("", Some (PathError "open" name (errno (files σ) name)))
             end).

(** An open file is named by its path: nothing moves or removes a file
    between the open and the writes. *)
Definition File := string.

(** [os.OpenFile(name, os.O_WRONLY|os.O_CREATE|os.O_TRUNC, 0644)]: the name
    must lead somewhere, through directories that exist, and not to a
    directory; the file is created when it is missing and truncated when it
    exists. *)
Definition os_OpenFile (name : string) : M (File * option error) := λ σ,
  match namei (files σ) name with
  | inr e => ((name, Some (PathError "open" name e)), σ)
  | inl k =>
      match node (files σ) k with
      | Some DirectoryNode => ((name, Some (PathError "open" name EISDIR)), σ)
      | _ => ((name, None), set_files <[name := RegularFile ""]> σ)
      end
  end.

(** [f.Write(b)]: the bytes are appended at the file offset, which is the
    end of what this handle wrote so far. *)
Definition File_Write (f : File) (b : string) : M (nat * option error) := λ σ,
  match files σ !! f with
  | Some (RegularFile contents) =>
      ((String.length b, None), set_files <[f := RegularFile (contents ++ b)]> σ)
  | _ => ((O, Some (PathError "write" f EISDIR)), σ)
  end.

(** ** What [conf.go] takes from outside the file

    [Default] and [Env.validate] are declared elsewhere in the package, the
    codecs are those of [gopkg.in/yaml.v1] and [encoding/json] (an error of
    theirs is given by its message), and [range_order] is the order in which
    [range] visits a map, which Go leaves unspecified. *)
Class Externals := {
  Default : Env;
  Env_validate : Env → option error;
  yaml_Marshal : gmap string (option Env) → string * option string;
  yaml_Unmarshal : string → gmap string (option Env) * option string;
  json_Unmarshal : string → gmap string (option Env) * option string;
  range_order : gmap string (option loc) → list (string * option loc);
}.

(** [range] visits every entry of the map once. *)
Class RangeLaw `{Externals} : Prop :=
  range_order_perm : ∀ m, range_order m ≡ₚ map_to_list m.


(** ** [conf.go] *)

Definition supportedExts : list string := ["yml"; "yaml"; "json"].

(** [Conf]: [Envs] is a reference to a map object. *)
Record Conf := mkConf { Envs : loc; osEnv : Env; path : string }.

Section conf.
Context `{Externals}.

(** [New]: [env.Parse(&conf.osEnv)] fills [osEnv], its error is dropped. *)
Definition New (configPath : string) : M Conf :=
  envs ← map_make;
  parsed ← gets environ;
  mret {| Envs := envs; osEnv := parsed; path := configPath |}.

(** The loop of [searchConfigPath] over the supported extensions. *)
Fixpoint searchConfigPath_loop (dir filename name : string)
    (exts : list string) : M (string * string * option error) :=
  match exts with
  | [] => mret ("", "", Some os_ErrNotExist)
  | ext :: rest =>
      let foundPath := filepath_Join [dir; name ++ "." ++ ext] in
      '(_, err) ← os_Stat foundPath;
      if bool_decide (err = None)
         && bool_decide ("." ++ ext = filepath_Ext filename)
      then mret (foundPath, ext, None)
      else searchConfigPath_loop dir filename name rest
  end.

Definition searchConfigPath (configPath : string)
    : M (string * string * option error) :=
  let dir := filepath_Dir configPath in
  let filename := filepath_Base configPath in
  let name :=
    substring 0 (String.length filename
                 - String.length (filepath_Ext filename)) filename in
  searchConfigPath_loop dir filename name supportedExts.

(** [yaml.Unmarshal(contents, &m)] and [json.Unmarshal(contents, &m)] store
    what they decoded in the map object: a new [Env] object for every
    entry that is not null. *)
Definition store_decoded (m : loc) (d : gmap string (option Env)) : M unit :=
  forM_ (map_to_list d) (λ '(k, v),
    match v with
    | None => map_store m k None
    | Some e => p ← env_alloc e; map_store m k (Some p)
    end).

Definition Unmarshal_into
    (decode : string → gmap string (option Env) * option string)
    (contents : string) (m : loc) : M (option error) :=
  let '(d, err) := decode contents in
  store_decoded m d ;; mret (LibraryError <$> err).

(** Modelled from the spec: [newEnv] is called by [Set] and [Get] and
    its body is not part of [conf.go]; it is the merge operation of section
    4.1, whose result is a new [Env] object, non-nil when the error is
    nil. *)
Definition newEnv (name : string) (initial : Env) (overrides : list Env)
    : M (option loc * option error) :=
  match mergeEnv Default name initial overrides with
  | inl e => p ← env_alloc e; mret (Some p, None)
  | inr err => mret (None, Some err)
  end.

(** [Conf.validate] *)
Definition validate (c : Conf) : M (option error) :=
  m ← map_get (Envs c);
  errors ← foldM (range_order m) [] (λ errors '(_, env),
    match env with
    | None => mret errors
    | Some p =>
        e ← env_load p;
        match Env_validate e with
        | Some err => mret (errors ++ [Error err])%list
        | None => mret errors
        end
    end);
  if (0 <? length errors)%nat
  then mret (Some (Errorf ("invalid config " ++ strings_Join errors ",")))
  else mret None.

(** [Load] *)
Definition Load (configPath : string) : M (Conf * option error) :=
  conf ← New configPath;
  '(path, ext, err) ← searchConfigPath configPath;
  match err with
  | Some err => mret (conf, Some err)
  | None =>
      '(contents, err) ← ioutil_ReadFile path;
      match err with
      | None =>
          if bool_decide (ext = "yml") || bool_decide (ext = "yaml") then
            err ← Unmarshal_into yaml_Unmarshal contents (Envs conf);
            match err with
            | Some err =>
                mret (conf, Some (Errorf
                  ("Invalid yaml found while loading the config file: "
                   ++ Error err)))
            | None => v ← validate conf; mret (conf, v)
            end
          else if bool_decide (ext = "json") then
            err ← Unmarshal_into json_Unmarshal contents (Envs conf);
            match err with
            | Some err =>
                mret (conf, Some (Errorf
                  ("Invalid json found while loading the config file: "
                   ++ Error err)))
            | None => v ← validate conf; mret (conf, v)
            end
          else v ← validate conf; mret (conf, v)
      | Some _ => v ← validate conf; mret (conf, v)
      end
  end.

(** [Conf.Set]: the map entry is assigned before the error of [newEnv] is
    looked at; the assignment panics when [c.Envs] is the nil map, as it is
    in [Conf{}]. *)
Definition Set_ (c : Conf) (name : string) (initial : Env)
    (overrides : list Env) : M (outcome (option loc * option error)) :=
  if decide (name = "") then mret (Returned (None, Some ErrInvalidEnvironmentName))
  else
    '(p, err) ← newEnv name initial (osEnv c :: overrides);
    h ← gets maps;
    match h !! Envs c with
    | None => mret (Panicked "assignment to entry in nil map")
    | Some _ =>
        map_store (Envs c) name p ;;
        match err with
        | Some err => mret (Returned (None, Some err))
        | None =>
            m ← map_get (Envs c);
            match m !! name with
            | Some (Some q) =>
                e ← env_load q; mret (Returned (Some q, Env_validate e))
            | _ => mret (Returned (None, None))
            end
        end
    end.

(** [Conf.Get] *)
Definition Get (c : Conf) (name : string) (overrides : list Env)
    : M (option loc * option error) :=
  m ← map_get (Envs c);
  match m !! name with
  | None => mret (None, Some ErrEnvDoesNotExist)
  | Some None => mret (None, Some ErrEnvNotDefined)
  | Some (Some p) =>
      env ← env_load p;
      newEnv name env (osEnv c :: overrides)
  end.

(** The body of the loop of [Conf.save]; the map it assigns to has the
    entry that [range] found, so it is not the nil map. *)
Definition save_entry (c : Conf) (entry : string * option loc) : M unit :=
  let '(name, env) := entry in
  match env with
  | None => map_delete (Envs c) name
  | Some p =>
      e ← env_load p;
      (if decide (Directory e = Directory Default)
       then env_store p {| Directory := ""; Timeout := Timeout e |}
       else mret tt) ;;
      e ← env_load p;
      (if decide (Timeout e = Timeout Default)
       then env_store p {| Directory := Directory e; Timeout := 0 |}
       else mret tt) ;;
      map_store (Envs c) name (Some p)
  end.

(** [Conf.save] *)
Definition save (c : Conf) (w : File) : M (option error) :=
  m ← map_get (Envs c);
  forM_ (range_order m) (save_entry c) ;;
  m ← map_get (Envs c);
  if decide (size m = 0%nat) then mret (Some ErrNoEnvironmentsDefined)
  else
    v ← gets (λ σ, view σ (Envs c));
    let '(bytes, err) := yaml_Marshal v in
    match err with
    | Some err => mret (Some (LibraryError err))
    | None => '(_, err) ← File_Write w bytes; mret err
    end.

(** [Conf.file] *)
Definition file (c : Conf) : M (File * option error) :=
  os_OpenFile (path c).

(** [Conf.Save]; closing the file changes nothing in the world. *)
Definition Save (c : Conf) : M (option error) :=
  '(f, err) ← file c;
  match err with
  | Some err => mret (Some err)
  | None => save c f
  end.

End conf.

(** ** A sample package instance

    Concrete values for what [conf.go] takes from outside, to run the
    embedding on: a default of 30 seconds in [/work], a validation that
    rejects negative timeouts, and codecs that write a mapping as the binary
    digits of its code. *)
Module sample.

Fixpoint pos_to_bits (p : positive) : string :=
  match p with
  | xH => ""
  | xO q => String "0"%char (pos_to_bits q)
  | xI q => String "1"%char (pos_to_bits q)
  end.

Fixpoint bits_to_pos (s : string) : option positive :=
  match s with
  | EmptyString => Some xH
  | String c rest =>
      q ← bits_to_pos rest;
      if Ascii.eqb c "0"%char then Some (xO q)
      else if Ascii.eqb c "1"%char then Some (xI q)
      else None
  end.

Global Instance Env_countable : Countable Env :=
  inj_countable' (λ e, (Directory e, Timeout e))
                 (λ '(d, t), {| Directory := d; Timeout := t |})
                 (λ e, match e with mkEnv _ _ => eq_refl end).

Definition Marshal (m : gmap string (option Env)) : string * option string :=
  (pos_to_bits (encode m), None).

Definition Unmarshal (b : string) : gmap string (option Env) * option string :=
  match bits_to_pos b ≫= decode with
  | Some m => (m, None)
  | None => (∅, Some "cannot unmarshal")
  end.

(** The JSON decoder takes a document that begins with a brace, and in it
    the same digits; what [Marshal] writes is no such document, as the YAML
    of [yaml.Marshal] is no JSON. *)
Definition Unmarshal_json (b : string)
    : gmap string (option Env) * option string :=
  match b with
  | String "{" digits => Unmarshal digits
  | _ => (∅, Some "invalid character looking for beginning of value")
  end.

Definition validate_timeout (e : Env) : option error :=
  if decide (Timeout e < 0)
  then Some (Errorf ("invalid timeout for " ++ Directory e))
  else None.

Definition externals : Externals := {|
  Default := {| Directory := "/work"; Timeout := 30 |};
  Env_validate := validate_timeout;
  yaml_Marshal := Marshal;
  yaml_Unmarshal := Unmarshal;
  json_Unmarshal := Unmarshal_json;
  range_order := map_to_list;
|}.

(** The file system of the samples: the working directory is [/work] and
    holds the nodes [fs], each under its name. *)
Definition file_system (fs : gmap string Node) : FileSystem :=
  {| nodes := <[ ["work"] := DirectoryNode ]>
                (list_to_map ((λ entry : string * Node,
                                 (["work"; entry.1], entry.2))
                              <$> map_to_list fs));
     cwd := ["work"] |}.

(** A world with nothing on the heap, given files. *)
Definition world (fs : gmap string Node) : World :=
  {| maps := ∅; envs := ∅; files := file_system fs; environ := Env_zero |}.

(** A world that holds one store: the map object [1] with the entries
    [entries], whose pointers are indices into [objs] counted from 1. *)
Definition store_world (entries : list (string * option loc))
    (objs : list Env) (fs : gmap string Node) : World :=
  {| maps := {[ 1%positive := list_to_map entries ]};
     envs := list_to_map (zip (Pos.of_nat <$> seq 1 (length objs)) objs);
     files := file_system fs;
     environ := Env_zero |}.

Definition store (configPath : string) : Conf :=
  {| Envs := 1%positive; osEnv := Env_zero; path := configPath |}.



(** The path [app.yml] is a directory. *)
Definition unreadable_world : World :=
  world {[ "app.yml" := DirectoryNode ]}.

(** A store with one Env in the default directory and one nil entry,
    and a file [config.yml] from before. *)
Definition dev_world : World :=
  store_world [("dev", Some 1%positive); ("old", None)]
    [ {| Directory := "/work"; Timeout := 10 |} ]
    {[ "config.yml" := RegularFile "previous" ]}.

(** A store whose only entry is nil. *)
Definition nil_world : World :=
  store_world [("old", None)] [] {[ "config.yml" := RegularFile "previous" ]}.

(** A store with one Env, equal to [Default]. *)
Definition default_world : World :=
  store_world [("dev", Some 1%positive)]
    [ {| Directory := "/work"; Timeout := 30 |} ]
    {[ "config.yml" := RegularFile "" ]}.

(** A store with two Envs that fail validation and a nil entry. *)
Definition invalid_world : World :=
  store_world [("a", Some 1%positive); ("b", Some 2%positive); ("c", None)]
    [ {| Directory := "/a"; Timeout := -1 |};
      {| Directory := "/b"; Timeout := -5 |} ] ∅.

End sample.

(** ** Vocabulary of the properties *)

(** [sub] occurs in [s]. *)
Definition contains (s sub : string) : Prop :=
  ∃ pre post, s = pre ++ sub ++ post.

(** The candidate file of [searchConfigPath] for an extension:
    [dir/basename.ext]. *)
Definition candidate (configPath ext : string) : string :=
  let filename := filepath_Base configPath in
  filepath_Join
    [filepath_Dir configPath;
     substring 0 (String.length filename
                  - String.length (filepath_Ext filename)) filename
     ++ "." ++ ext].

(** A candidate matches when its file exists and the extension of the path
    that was asked for is this very extension. *)
Definition candidate_matches (σ : World) (configPath ext : string) : Prop :=
  is_Some (files σ !! candidate configPath ext)
  ∧ "." ++ ext = filepath_Ext (filepath_Base configPath).

Global Instance candidate_matches_dec σ configPath ext :
  Decision (candidate_matches σ configPath ext).
Proof. unfold candidate_matches. apply _. Defined.

(** Path resolution as section 4.5 of the spec words it: the first
    supported extension, in the fixed order, whose candidate matches; with
    none, [NotExist]. *)
Definition resolve (σ : World) (configPath : string)
    : string * string * option error :=
  match List.find (λ ext, bool_decide (candidate_matches σ configPath ext))
                  supportedExts with
  | Some ext => (candidate configPath ext, ext, None)
  | None => ("", "", Some os_ErrNotExist)
  end.

Section vocabulary.
Context `{Externals}.

(** The message an entry contributes to store-level validation: none for
    a nil entry, that of [Env.validate] for an Env that fails it. *)
Definition invalid_message (entry : string * option Env) : option string :=
  entry.2 ≫= λ e, Error <$> Env_validate e.

Definition invalid_messages (v : gmap string (option Env)) : list string :=
  omap invalid_message (map_to_list v).

(** Default suppression: a field that equals the field of [Default] is
    reset to its zero value. *)
Definition suppress (e : Env) : Env :=
  {| Directory := if decide (Directory e = Directory Default)
                  then "" else Directory e;
     Timeout := if decide (Timeout e = Timeout Default)
                then 0 else Timeout e |}.

(** The outcome of [Get] with the pointer it returns followed. *)
Definition Get_result (c : Conf) (name : string) (overrides : list Env)
    (σ : World) : option Env * option error :=
  let '((p, err), σ') := Get c name overrides σ in (deref σ' p, err).

(** The message that the entry of a map object contributes. *)
Definition failure_at (σ : World) (entry : string * option loc)
    : option string :=
  invalid_message (entry.1, deref σ entry.2).

(** What the pre-write pass of [save] makes of one entry: a nil entry goes
    away, an Env stays with its defaults suppressed. *)
Definition clean_entry (entry : option Env) : option (option Env) :=
  match entry with
  | None => None
  | Some e => Some (Some (suppress e))
  end.

Definition cleaned_view (v : gmap string (option Env))
    : gmap string (option Env) :=
  omap clean_entry v.

(** The heap after the pre-write pass of [save] on the store [c], begun in
    [σ]: the map object of the store has lost its nil entries and kept the
    others with their pointers, every Env object it points to has its
    defaults suppressed, and nothing else has changed. *)
Definition cleaned (c : Conf) (σ σ' : World) : Prop :=
  let m := maps σ !!! Envs c in
  maps σ' !!! Envs c = filter (λ kv, kv.2 ≠ None) m
  ∧ (∀ j, j ≠ Envs c → maps σ' !! j = maps σ !! j)
  ∧ (∀ k p, m !! k = Some (Some p) → envs σ' !!! p = suppress (envs σ !!! p))
  ∧ (∀ q, (∀ k, m !! k ≠ Some (Some q)) → envs σ' !! q = envs σ !! q)
  ∧ environ σ' = environ σ.

(** Every pointer of the map object [m] refers to an Env object. *)
Definition allocated (σ : World) (m : loc) : Prop :=
  ∀ k p, (maps σ !!! m) !! k = Some (Some p) → is_Some (envs σ !! p).
End vocabulary.

(** ** Vocabulary of the path proofs

    [Clean] and the file system read a path name element by element; the
    proofs follow the loop of [Clean] over what is left to read, then over
    the list of elements, and describe its buffer by the elements it
    holds. *)
Section path_vocabulary.
Local Open Scope nat_scope.

(** [s[r:]] *)
Fixpoint sdrop (r : nat) (s : string) : string :=
  match r, s with
  | O, _ => s
  | S r', String _ t => sdrop r' t
  | S _, EmptyString => ""
  end.

Definition stail (s : string) : string :=
  match s with String _ t => t | EmptyString => "" end.

Definition is_empty (s : string) : bool :=
  match s with EmptyString => true | String _ _ => false end.

Definition head_sep (s : string) : bool :=
  match s with String c _ => IsPathSeparator c | EmptyString => false end.

Definition head_dot (s : string) : bool :=
  match s with String c _ => Ascii.eqb c "."%char | EmptyString => false end.

(** The first element of [s] and what follows it. *)
Fixpoint span_elem (s : string) : string * string :=
  match s with
  | EmptyString => ("", "")
  | String c t =>
      if IsPathSeparator c then ("", s)
      else let '(e, rest) := span_elem t in (String c e, rest)
  end.

(** The default case of the loop of [Clean], on the buffer and the index
    [dotdot]: a real path element is appended, after a separator when one
    is needed. *)
Definition push (rooted : bool) (e : string) (st : string * nat) : string * nat :=
  let out := st.1 in
  let w := String.length out in
  ((if (rooted && negb (w =? 1)) || (negb rooted && negb (w =? 0))
    then out ++ "/" else out) ++ e, st.2).

(** The [..] case of the loop of [Clean]. *)
Definition updots (rooted : bool) (st : string * nat) : string * nat :=
  let out := st.1 in
  if st.2 <? String.length out then (backtrack out st.2, st.2)
  else if negb rooted then
    let out := if 0 <? String.length out then out ++ "/" else out in
    let out := out ++ ".." in
    (out, String.length out)
  else st.

(** The loop of [Clean] over what is left of the path. *)
Fixpoint run (fuel : nat) (rooted : bool) (s : string) (st : string * nat)
    : string * nat :=
  match fuel with
  | O => st
  | S fuel' =>
      match s with
      | EmptyString => st
      | String c t =>
          if IsPathSeparator c then run fuel' rooted t st
          else if Ascii.eqb c "."%char && (is_empty t || head_sep t)
          then run fuel' rooted t st
          else if Ascii.eqb c "."%char && head_dot t
                  && (is_empty (stail t) || head_sep (stail t))
          then run fuel' rooted (stail t) (updots rooted st)
          else let '(e, rest) := span_elem s in
               run fuel' rooted rest (push rooted e st)
      end
  end.

Definition runN (rooted : bool) (s : string) (st : string * nat) : string * nat :=
  run (String.length s) rooted s st.

(** A path element holds no separator. *)
Fixpoint sep_free (e : string) : Prop :=
  match e with
  | EmptyString => True
  | String c t => IsPathSeparator c = false ∧ sep_free t
  end.

(** What follows an element: nothing, or a separator. *)
Definition boundary (rest : string) : Prop :=
  rest = "" ∨ head_sep rest = true.

(** One element of the path, on the state of the loop. *)
Definition step (rooted : bool) (e : string) (st : string * nat) : string * nat :=
  if decide (e = "") then st
  else if decide (e = ".") then st
  else if decide (e = "..") then updots rooted st
  else push rooted e st.

Definition steps (rooted : bool) (ts : list string) (st : string * nat)
    : string * nat :=
  foldl (λ st e, step rooted e st) st ts.

(** The state in which the loop of [Clean] begins, and what [Clean] makes
    of the buffer in the end. *)
Definition init (rooted : bool) : string * nat :=
  if rooted then ("/", 1) else ("", 0).

Definition or_dot (out : string) : string :=
  if decide (out = "") then "." else out.

(** A name: an element that is not empty, [.] or [..]. *)
Definition regular (e : string) : Prop :=
  e ≠ "" ∧ sep_free e ∧ e ≠ "." ∧ e ≠ "..".

(** A cleaned path: [us] times [..], for a path that is not rooted, and
    then the names [es]. *)
Definition render (rooted : bool) (us : nat) (es : list string) : string :=
  (if rooted then "/" else "") ++ strings_Join (replicate us ".." ++ es) "/".

(** The state of the loop after [us] leading [..] and the names [es]. *)
Definition St (rooted : bool) (us : nat) (es : list string) : string * nat :=
  (render rooted us es, String.length (render rooted us [])).

Definition valid (rooted : bool) (us : nat) (es : list string) : Prop :=
  (rooted = true → us = 0) ∧ Forall regular es.






(** The name can be opened for writing: it leads to a place that is not a
    directory. *)
Definition writable (fs : FileSystem) (name : string) : Prop :=
  ∃ k, namei fs name = inl k ∧ node fs k ≠ Some DirectoryNode.

End path_vocabulary.

(** * Properties *)

(** ** The path functions on examples *)

Example Ext_examples :
  filepath_Ext "app.json" = ".json" ∧ filepath_Ext "a.b/conf" = ""
  ∧ filepath_Ext "conf.tar.yml" = ".yml" ∧ filepath_Ext ".yml" = ".yml".
Proof. repeat split; reflexivity. Qed.

Example Base_examples :
  filepath_Base "/etc/app.yml" = "app.yml" ∧ filepath_Base "" = "."
  ∧ filepath_Base "///" = "/" ∧ filepath_Base "conf/dev.yaml//" = "dev.yaml".
Proof. repeat split; reflexivity. Qed.

Example Clean_examples :
  filepath_Clean "a//b/./c/.." = "a/b" ∧ filepath_Clean "/../a" = "/a"
  ∧ filepath_Clean "../../x" = "../../x" ∧ filepath_Clean "a/../.." = ".."
  ∧ filepath_Clean "./" = "." ∧ filepath_Clean "/a/b/../../.." = "/"
  ∧ filepath_Clean "abc/def/../ghi/../jkl" = "abc/jkl".
Proof. repeat split; reflexivity. Qed.

Example Dir_Join_examples :
  filepath_Dir "app.json" = "." ∧ filepath_Dir "/etc/kit/config.yml" = "/etc/kit"
  ∧ filepath_Join ["."; "app.json"] = "app.json"
  ∧ filepath_Join ["/etc/kit"; "config.yml"] = "/etc/kit/config.yml"
  ∧ filepath_Join [""; "x"] = "x".
Proof. repeat split; reflexivity. Qed.

(** ** Strings *)

Lemma string_app_cons a (s t : string) : String a s ++ t = String a (s ++ t).
Proof. reflexivity. Qed.

Lemma string_app_nil_r (s : string) : s ++ "" = s.
Proof. induction s as [|a s IH]; [done|]. by rewrite string_app_cons, IH. Qed.

Lemma string_app_assoc (s t u : string) : (s ++ t) ++ u = s ++ t ++ u.
Proof. induction s as [|a s IH]; [done|]. by rewrite !string_app_cons, IH. Qed.

Lemma contains_refl s : contains s s.
Proof. exists "", "". by rewrite string_app_nil_r. Qed.

Lemma contains_app_l s pre sub : contains s sub → contains (pre ++ s) sub.
Proof.
  intros (a & b & ->). exists (pre ++ a), b. by rewrite string_app_assoc.
Qed.

Lemma contains_app_r s post sub : contains s sub → contains (s ++ post) sub.
Proof.
  intros (a & b & ->). exists a, (b ++ post). by rewrite !string_app_assoc.
Qed.

Lemma strings_Join_contains (l : list string) sep x :
  x ∈ l → contains (strings_Join l sep) x.
Proof.
  induction l as [|e rest IH]; [by intros ?%elem_of_nil|].
  intros Hin. apply elem_of_cons in Hin as [->|Hin].
  - destruct rest; simpl; [apply contains_refl|].
    apply contains_app_r, contains_refl.
  - destruct rest as [|e' rest']; [by apply elem_of_nil in Hin|].
    change (strings_Join (e :: e' :: rest') sep)
      with (e ++ sep ++ strings_Join (e' :: rest') sep).
    by apply contains_app_l, contains_app_l, IH.
Qed.

(** ** The merge rule *)

Section merge_facts.
Context {A : Type} `{EqDecision A} (zero : A).

Lemma pick_set acc new : new ≠ zero → pick zero acc new = new.
Proof. intros Hne. unfold pick. by case_decide. Qed.

Lemma pick_unset acc : pick zero acc zero = acc.
Proof. unfold pick. by case_decide. Qed.

Lemma precedence_snoc_set default base os o :
  o ≠ zero → precedence zero default base (os ++ [o]) = o.
Proof.
  intros Hne. unfold precedence. rewrite rev_unit. simpl.
  by rewrite bool_decide_true.
Qed.

Lemma precedence_snoc_unset default base os :
  precedence zero default base (os ++ [zero])
  = precedence zero default base os.
Proof.
  unfold precedence. rewrite rev_unit. simpl.
  by rewrite bool_decide_false by (intros Hne; by apply Hne).
Qed.

(** Folding [pick] over the overrides and then defaulting is the
    precedence of the spec. *)
Lemma pick_fold_precedence default base os :
  pick zero default (foldl (pick zero) base os)
  = precedence zero default base os.
Proof.
  induction os as [|o os IH] using rev_ind.
  - unfold precedence, pick. simpl. by repeat case_decide.
  - rewrite foldl_app. simpl. destruct (decide (o = zero)) as [->|Hne].
    + by rewrite pick_unset, precedence_snoc_unset.
    + rewrite (pick_set (foldl (pick zero) base os) o) by done.
      rewrite pick_set by done. by rewrite precedence_snoc_set.
Qed.

(** A set base is never brought back to zero. *)
Lemma pick_fold_set base os :
  base ≠ zero → foldl (pick zero) base os ≠ zero.
Proof.
  revert base. induction os as [|o os IH]; intros base Hb; simpl; [done|].
  apply IH. unfold pick. by case_decide.
Qed.
End merge_facts.

Lemma Directory_foldl_override base os :
  Directory (foldl override base os)
  = foldl (pick "") (Directory base) (Directory <$> os).
Proof. revert base. induction os as [|o os IH]; intros base; simpl; [done|]. by rewrite IH. Qed.

Lemma Timeout_foldl_override base os :
  Timeout (foldl override base os)
  = foldl (pick 0) (Timeout base) (Timeout <$> os).
Proof. revert base. induction os as [|o os IH]; intros base; simpl; [done|]. by rewrite IH. Qed.

Lemma mergeEnv_named D name base os :
  name ≠ "" →
  mergeEnv D name base os = inl (fill_defaults D (foldl override base os)).
Proof. intros Hname. unfold mergeEnv. by case_decide. Qed.

(** C3.  For every base Env, override sequence and field, the merge gives
    the field the value of the last override that set it; when no override
    set it, the base's value if the base set it, and otherwise the value of
    [Default]. *)
Theorem merge_precedence (D : Env) (name : string) (base : Env) (os : list Env) :
  name ≠ "" →
  ∃ e, mergeEnv D name base os = inl e
    ∧ Directory e = precedence "" (Directory D) (Directory base) (Directory <$> os)
    ∧ Timeout e = precedence 0 (Timeout D) (Timeout base) (Timeout <$> os).
Proof.
  intros Hname. eexists. split; [by apply mergeEnv_named|]. simpl. split.
  - by rewrite Directory_foldl_override, pick_fold_precedence.
  - by rewrite Timeout_foldl_override, pick_fold_precedence.
Qed.

Lemma merge_precedence_witness :
  ∃ e, mergeEnv (mkEnv "/work" 30) "dev" (mkEnv "/srv" 0)
         [mkEnv "" 10; mkEnv "/tmp" 0; mkEnv "" 0] = inl e
    ∧ Directory e = "/tmp" ∧ Timeout e = 10.
Proof.
  destruct (merge_precedence (mkEnv "/work" 30) "dev" (mkEnv "/srv" 0)
              [mkEnv "" 10; mkEnv "/tmp" 0; mkEnv "" 0]) as (e & He & Hd & Ht).
  - discriminate.
  - exists e. split; [exact He|]. split; [exact Hd | exact Ht].
Defined.

(** C5.  An override whose field is left at zero never clears a field that
    was set: the field keeps its value, so merging [{Timeout: 30}] with the
    override [{Timeout: 0}] gives [Timeout: 30], and no sequence of overrides
    brings a set field of the base back to zero. *)
Theorem merge_zero_override_keeps (D : Env) (name : string) (base : Env) :
  name ≠ "" →
  (∀ o, ∃ e, mergeEnv D name base [o] = inl e
      ∧ (Directory base ≠ "" → Directory o = "" → Directory e = Directory base)
      ∧ (Timeout base ≠ 0 → Timeout o = 0 → Timeout e = Timeout base))
  ∧ (∃ e, mergeEnv D name (mkEnv "" 30) [mkEnv "" 0] = inl e ∧ Timeout e = 30)
  ∧ (∀ os, ∃ e, mergeEnv D name base os = inl e
      ∧ (Directory base ≠ "" → Directory e ≠ "")
      ∧ (Timeout base ≠ 0 → Timeout e ≠ 0)).
Proof.
  intros Hname. split; [|split].
  - intros o. eexists. split; [by apply mergeEnv_named|]. simpl. split.
    + intros Hb ->. rewrite pick_unset. by apply pick_set.
    + intros Hb ->. rewrite pick_unset. by apply pick_set.
  - eexists. split; [by apply mergeEnv_named|]. reflexivity.
  - intros os. eexists. split; [by apply mergeEnv_named|]. simpl. split.
    + intros Hb. rewrite Directory_foldl_override.
      rewrite pick_set; by apply pick_fold_set.
    + intros Hb. rewrite Timeout_foldl_override.
      rewrite pick_set; by apply pick_fold_set.
Qed.

Lemma merge_zero_override_keeps_witness :
  ∃ e, mergeEnv (mkEnv "/work" 30) "dev" (mkEnv "/srv" 45) [mkEnv "" 0] = inl e
    ∧ Directory e = "/srv" ∧ Timeout e = 45.
Proof.
  destruct (merge_zero_override_keeps (mkEnv "/work" 30) "dev" (mkEnv "/srv" 45))
    as [Hone _]; [discriminate|].
  destruct (Hone (mkEnv "" 0)) as (e & He & Hd & Ht).
  exists e. split; [exact He|]. split.
  - apply Hd; [discriminate | reflexivity].
  - apply Ht; [discriminate | reflexivity].
Defined.

(** ** Path resolution *)

Lemma searchConfigPath_loop_find dir filename name exts σ :
  searchConfigPath_loop dir filename name exts σ
  = (match List.find (λ ext,
             bool_decide (is_Some (files σ !! filepath_Join [dir; name ++ "." ++ ext])
                          ∧ "." ++ ext = filepath_Ext filename)) exts with
     | Some ext => (filepath_Join [dir; name ++ "." ++ ext], ext, None)
     | None => ("", "", Some os_ErrNotExist)
     end, σ).
Proof.
  induction exts as [|ext rest IH]; [done|].
  cbn [searchConfigPath_loop List.find].
  unfold mbind, M_bind, os_Stat, gets at 1.
  destruct (files σ !! filepath_Join [dir; name ++ "." ++ ext]) as [n|] eqn:Hf.
  - destruct (decide ("." ++ ext = filepath_Ext filename)) as [He|He].
    + rewrite (bool_decide_true (_ ∧ _)) by (split; [by eexists|done]).
      by rewrite !bool_decide_true.
    + rewrite (bool_decide_false (_ ∧ _)) by (intros [_ ?]; done).
      rewrite (bool_decide_false (_ = filepath_Ext _)) by done.
      rewrite andb_false_r. apply IH.
  - rewrite (bool_decide_false (_ ∧ _)) by (by intros [[? ?] _]).
    rewrite (bool_decide_false (Some _ = None)) by done. apply IH.
Qed.

Lemma searchConfigPath_resolve configPath σ :
  searchConfigPath configPath σ = (resolve σ configPath, σ).
Proof. unfold searchConfigPath. by rewrite searchConfigPath_loop_find. Qed.

(** C7.  Path resolution succeeds only for a supported extension, taken in
    the order yml, yaml, json, whose candidate file [dir/basename.ext] exists
    and which is exactly the extension of the path asked for; with
    [app.yaml] and [app.json] both on disk, resolving [app.json] gives the
    json file and format; when no candidate matches, resolution fails with
    [NotExist]. *)
Theorem searchConfigPath_strict (configPath : string) (σ : World) :
  searchConfigPath configPath σ = (resolve σ configPath, σ)
  ∧ (∀ found ext, resolve σ configPath = (found, ext, None) →
       ext ∈ supportedExts ∧ found = candidate configPath ext
       ∧ is_Some (files σ !! found)
       ∧ filepath_Ext (filepath_Base configPath) = "." ++ ext)
  ∧ ((∀ ext, ext ∈ supportedExts → ¬ candidate_matches σ configPath ext) →
       resolve σ configPath = ("", "", Some os_ErrNotExist))
  ∧ (is_Some (files σ !! "app.yaml") → is_Some (files σ !! "app.json") →
       searchConfigPath "app.json" σ = (("app.json", "json", None), σ)).
Proof.
  split; [apply searchConfigPath_resolve|]. split; [|split].
  - intros found ext. unfold resolve.
    destruct (List.find _ supportedExts) as [e|] eqn:Hfind; [|done].
    intros [= <- <-]. apply find_some in Hfind as [Hin Hm].
    apply bool_decide_eq_true in Hm as [Hex Hext].
    split; [by apply list_elem_of_In|]. by repeat split.
  - intros Hnone. unfold resolve.
    destruct (List.find _ supportedExts) as [e|] eqn:Hfind; [|done].
    apply find_some in Hfind as [Hin Hm].
    apply bool_decide_eq_true in Hm. by apply list_elem_of_In, Hnone in Hin.
  - intros _ Hjson. rewrite searchConfigPath_resolve. f_equal.
    unfold resolve. cbn [supportedExts List.find].
    rewrite (bool_decide_false (candidate_matches σ "app.json" "yml"))
      by (by intros [_ ?]).
    rewrite (bool_decide_false (candidate_matches σ "app.json" "yaml"))
      by (by intros [_ ?]).
    by rewrite (bool_decide_true (candidate_matches σ "app.json" "json")).
Qed.

Lemma searchConfigPath_strict_witness :
  searchConfigPath "app.json"
    (sample.world {[ "app.yaml" := RegularFile "a"; "app.json" := RegularFile "{}" ]})
  = (("app.json", "json", None),
     sample.world {[ "app.yaml" := RegularFile "a"; "app.json" := RegularFile "{}" ]}).
Proof.
  apply (searchConfigPath_strict "app.json"
    (sample.world {[ "app.yaml" := RegularFile "a"; "app.json" := RegularFile "{}" ]}));
    vm_compute; eauto.
Defined.

(** ** Extensions are suffixes *)

Lemma substring_zero_length (s : string) : substring 0 (String.length s) s = s.
Proof. induction s as [|a s IH]; [done|]. simpl. by rewrite IH. Qed.

Lemma substring_split (s : string) (i : nat) :
  (i ≤ String.length s)%nat →
  substring 0 i s ++ substring i (String.length s - i) s = s.
Proof.
  revert i. induction s as [|a s IH]; intros i Hi.
  - simpl in Hi. assert (i = 0%nat) as -> by lia. done.
  - destruct i as [|i].
    + change (substring 0 0 (String a s)) with "".
      rewrite Nat.sub_0_r. by rewrite substring_zero_length.
    + simpl in Hi. simpl. rewrite string_app_cons. f_equal. apply IH. lia.
Qed.

Lemma length_slice_from (s : string) (i : nat) :
  (i ≤ String.length s)%nat →
  String.length (slice_from i s) = (String.length s - i)%nat.
Proof.
  unfold slice_from. revert i. induction s as [|a s IH]; intros i Hi.
  - simpl in Hi. by assert (i = 0%nat) as -> by lia.
  - destruct i as [|i].
    + rewrite Nat.sub_0_r. by rewrite substring_zero_length.
    + simpl in Hi. simpl. apply IH. lia.
Qed.

Lemma Ext_loop_suffix (path : string) (k : nat) :
  (k ≤ String.length path)%nat →
  ∃ i, (i ≤ String.length path)%nat ∧ Ext_loop path k = slice_from i path.
Proof.
  induction k as [|k IH]; intros Hk.
  - exists (String.length path). split; [done|].
    unfold slice_from. rewrite Nat.sub_diag. simpl.
    clear Hk. induction path as [|a s IHs]; [done|]. simpl. apply IHs.
  - simpl. destruct (sep_at path k).
    + exists (String.length path). split; [done|].
      unfold slice_from. rewrite Nat.sub_diag.
      clear. induction path as [|a s IHs]; [done|]. simpl. apply IHs.
    + destruct (dot_at path k).
      * exists k. split; [lia|done].
      * apply IH. lia.
Qed.

(** The name without its extension, followed by the extension, is the
    name. *)
Lemma name_Ext (filename : string) :
  substring 0 (String.length filename - String.length (filepath_Ext filename))
    filename ++ filepath_Ext filename = filename.
Proof.
  unfold filepath_Ext.
  destruct (Ext_loop_suffix filename (String.length filename)) as (i & Hi & ->);
    [done|].
  rewrite length_slice_from by done.
  replace (String.length filename - (String.length filename - i))%nat with i by lia.
  by apply substring_split.
Qed.

Lemma candidate_own_ext (configPath ext : string) :
  filepath_Ext (filepath_Base configPath) = "." ++ ext →
  candidate configPath ext
  = filepath_Join [filepath_Dir configPath; filepath_Base configPath].
Proof.
  intros Hext. unfold candidate. cbv zeta. rewrite <- Hext. by rewrite name_Ext.
Qed.

(** ** Cleaning a path, and the files that path names lead to *)
Section path_facts.
Local Open Scope nat_scope.

(** ** Strings by position and by structure *)

Lemma string_length_app (s t : string) :
  String.length (s ++ t) = String.length s + String.length t.
Proof. induction s as [|a s IH]; [done|]. rewrite string_app_cons. simpl. by rewrite IH. Qed.

Lemma sdrop_nil r : sdrop r "" = "".
Proof. by destruct r. Qed.

Lemma sdrop_length (s : string) : sdrop (String.length s) s = "".
Proof. induction s as [|a s IH]; [done|]. done. Qed.


Lemma length_sdrop r (s : string) :
  String.length (sdrop r s) = String.length s - r.
Proof.
  revert r. induction s as [|a s IH]; intros r; [by rewrite sdrop_nil|].
  destruct r as [|r]; simpl; [done|]. apply IH.
Qed.

Lemma sdrop_S r (s : string) : sdrop (S r) s = stail (sdrop r s).
Proof.
  revert r. induction s as [|a s IH]; intros r; [by destruct r|].
  destruct r as [|r]; [done|]. change (sdrop (S (S r)) (String a s)) with (sdrop (S r) s).
  by rewrite IH.
Qed.

Lemma sdrop_add r k (s : string) : sdrop (r + k) s = sdrop k (sdrop r s).
Proof.
  revert s. induction r as [|r IH]; intros s; [done|].
  destruct s as [|a s]; simpl; [by rewrite sdrop_nil|]. apply IH.
Qed.

Lemma sdrop_app (s t : string) : sdrop (String.length s) (s ++ t) = t.
Proof. induction s as [|a s IH]; [done|]. by rewrite string_app_cons. Qed.

Lemma get_sdrop r (s : string) :
  String.get r s = match sdrop r s with String c _ => Some c | EmptyString => None end.
Proof.
  revert r. induction s as [|a s IH]; intros r; [by destruct r|].
  destruct r as [|r]; [done|]. simpl. apply IH.
Qed.

Lemma sep_at_sdrop (s : string) r : sep_at s r = head_sep (sdrop r s).
Proof. unfold sep_at. rewrite get_sdrop. by destruct (sdrop r s). Qed.

Lemma dot_at_sdrop (s : string) r : dot_at s r = head_dot (sdrop r s).
Proof. unfold dot_at. rewrite get_sdrop. by destruct (sdrop r s). Qed.

Lemma substring_sdrop r m (s : string) : substring r m s = substring 0 m (sdrop r s).
Proof.
  revert r. induction s as [|a s IH]; intros r.
  - destruct r, m; done.
  - destruct r as [|r]; [done|]. simpl. rewrite IH. done.
Qed.

Lemma substring_0_app (e rest : string) :
  substring 0 (String.length e) (e ++ rest) = e.
Proof.
  induction e as [|a e IH]; [by destruct rest|].
  rewrite string_app_cons. simpl. by rewrite IH.
Qed.


Lemma lt_length_sdrop r (s : string) :
  (r <? String.length s)%nat = negb (is_empty (sdrop r s)).
Proof.
  pose proof (length_sdrop r s) as Hlen.
  destruct (sdrop r s) as [|c t]; simpl in *.
  - apply Nat.ltb_ge. lia.
  - apply Nat.ltb_lt. lia.
Qed.

Lemma is_empty_length (s : string) : is_empty s = (String.length s =? 0)%nat.
Proof. by destruct s. Qed.

(** ** The elements of a path *)

Lemma span_elem_app (s : string) :
  (span_elem s).1 ++ (span_elem s).2 = s.
Proof.
  induction s as [|c t IH]; [done|]. simpl.
  destruct (IsPathSeparator c); [done|].
  destruct (span_elem t) as [e rest]. simpl in *. by rewrite string_app_cons, IH.
Qed.

Lemma span_elem_rest (s : string) :
  (span_elem s).2 = "" ∨ head_sep (span_elem s).2 = true.
Proof.
  induction s as [|c t IH]; [by left|]. simpl.
  destruct (IsPathSeparator c) eqn:Hc; [by right|].
  by destruct (span_elem t).
Qed.

Lemma span_elem_length (s : string) :
  String.length (span_elem s).1 + String.length (span_elem s).2 = String.length s.
Proof. rewrite <- string_length_app. by rewrite span_elem_app. Qed.

Lemma element_end_spec fuel (path : string) r :
  String.length (sdrop r path) ≤ fuel →
  element_end fuel path r = r + String.length (span_elem (sdrop r path)).1.
Proof.
  revert r. induction fuel as [|fuel IH]; intros r Hlen.
  - destruct (sdrop r path); simpl in Hlen; [simpl; lia|lia].
  - cbn [element_end]. rewrite lt_length_sdrop, sep_at_sdrop.
    pose proof (sdrop_S r path) as HS.
    destruct (sdrop r path) as [|c t] eqn:Hd.
    + simpl. lia.
    + cbn [is_empty head_sep negb andb span_elem stail] in *.
      destruct (IsPathSeparator c); cbn [negb fst String.length]; [lia|].
      rewrite IH by (rewrite HS; simpl in Hlen; lia). rewrite HS.
      destruct (span_elem t). cbn [fst String.length]. lia.
Qed.

(** ** The loop of [Clean] over what is left to read *)

Lemma Clean_loop_run fuel (path : string) rooted r out dotdot :
  Clean_loop fuel path rooted r out dotdot
  = (run fuel rooted (sdrop r path) (out, dotdot)).1.
Proof.
  revert r out dotdot. induction fuel as [|fuel IH]; intros r out dotdot; [done|].
  cbn [Clean_loop run]. rewrite lt_length_sdrop, !sep_at_sdrop, !dot_at_sdrop.
  replace (r + 1) with (S r) by lia. replace (r + 2) with (S (S r)) by lia.
  pose proof (length_sdrop r path) as Hlen.
  pose proof (element_end_spec (String.length path) path r) as Hend.
  rewrite (substring_sdrop r).
  assert (∀ k, sdrop (r + k) path = sdrop k (sdrop r path)) as Hadd
    by (intros; apply sdrop_add).
  pose proof (sdrop_S r path) as H1. pose proof (sdrop_S (S r) path) as H2.
  rewrite H1 in H2.
  destruct (sdrop r path) as [|c t] eqn:Hd; [done|].
  cbn [stail] in H1, H2. rewrite !H1, !H2.
  cbn [is_empty negb stail head_sep head_dot].
  assert ((S r =? String.length path) = is_empty t) as ->.
  { rewrite is_empty_length. simpl in Hlen.
    destruct (Nat.eqb_spec (String.length t) 0),
      (Nat.eqb_spec (S r) (String.length path)); first [done | exfalso; lia]. }
  destruct (IsPathSeparator c) eqn:Hc; [by rewrite IH, H1|].
  destruct (Ascii.eqb c "."%char && (is_empty t || head_sep t)) eqn:Hdot;
    [by rewrite IH, H1|].
  assert (head_dot t = true →
          (S (S r) =? String.length path) = is_empty (stail t)) as Hdd.
  { intros Ht. destruct t as [|c' t']; [done|]. rewrite is_empty_length.
    simpl in Hlen. cbn [stail String.length].
    destruct (Nat.eqb_spec (String.length t') 0),
      (Nat.eqb_spec (S (S r)) (String.length path));
      first [done | exfalso; lia]. }
  assert (Clean_loop fuel path rooted (element_end (String.length path) path r)
            ((if (rooted && negb (String.length out =? 1))
                 || (negb rooted && negb (String.length out =? 0))
              then out ++ "/" else out)
             ++ substring 0 (element_end (String.length path) path r - r)
                  (String c t)) dotdot
          = (let '(e, rest) := span_elem (String c t) in
             run fuel rooted rest (push rooted e (out, dotdot))).1) as Hdefault.
  { rewrite Hend by (rewrite Hlen; lia).
    replace (r + String.length (span_elem (String c t)).1 - r)
      with (String.length (span_elem (String c t)).1) by lia.
    rewrite IH, Hadd. unfold push. cbn [fst snd].
    pose proof (span_elem_app (String c t)) as Happ.
    destruct (span_elem (String c t)) as [e rest]. cbn [fst snd] in *.
    rewrite <- Happ. by rewrite substring_0_app, sdrop_app. }
  destruct (head_dot t) eqn:Ht.
  - rewrite Hdd by done.
    destruct (Ascii.eqb c "."%char && true
              && (is_empty (stail t) || head_sep (stail t))); [|exact Hdefault].
    unfold updots. cbn [fst snd].
    destruct (dotdot <? String.length out); [by rewrite IH, H2|].
    destruct rooted; cbn [negb]; by rewrite IH, H2.
  - rewrite andb_false_r. cbn [andb]. exact Hdefault.
Qed.

Lemma span_elem_rest_length c (t : string) :
  IsPathSeparator c = false →
  String.length (span_elem (String c t)).2 ≤ String.length t.
Proof.
  intros Hc. pose proof (span_elem_length (String c t)) as Hlen.
  simpl in *. rewrite Hc in *. destruct (span_elem t). simpl in *. lia.
Qed.

Lemma run_fuel f1 f2 rooted (s : string) st :
  String.length s ≤ f1 → String.length s ≤ f2 →
  run f1 rooted s st = run f2 rooted s st.
Proof.
  revert f2 s st. induction f1 as [|f1 IH]; intros f2 s st H1 H2.
  - destruct s; [|simpl in H1; lia]. by destruct f2.
  - destruct f2 as [|f2]; [destruct s; [done|simpl in H2; lia]|].
    destruct s as [|c t]; [done|]. cbn [run]. simpl in H1, H2.
    destruct (IsPathSeparator c) eqn:Hc; [apply IH; lia|].
    destruct (Ascii.eqb c "."%char && (is_empty t || head_sep t));
      [apply IH; lia|].
    assert (String.length (stail t) ≤ String.length t) as Htail
      by (destruct t; simpl; lia).
    destruct (Ascii.eqb c "."%char && head_dot t
              && (is_empty (stail t) || head_sep (stail t)));
      [apply IH; lia|].
    pose proof (span_elem_rest_length c t Hc) as Hrest.
    destruct (span_elem (String c t)) as [e rest]. simpl in Hrest.
    apply IH; lia.
Qed.

Lemma run_runN f rooted (s : string) st :
  String.length s ≤ f → run f rooted s st = runN rooted s st.
Proof. intros Hf. by apply run_fuel. Qed.

Lemma run_S f rooted c (t : string) st :
  run (S f) rooted (String c t) st
  = if IsPathSeparator c then run f rooted t st
    else if Ascii.eqb c "."%char && (is_empty t || head_sep t)
    then run f rooted t st
    else if Ascii.eqb c "."%char && head_dot t
            && (is_empty (stail t) || head_sep (stail t))
    then run f rooted (stail t) (updots rooted st)
    else let '(e, rest) := span_elem (String c t) in
         run f rooted rest (push rooted e st).
Proof. reflexivity. Qed.

Lemma runN_nil rooted st : runN rooted "" st = st.
Proof. done. Qed.

Lemma runN_sep rooted (t : string) st :
  runN rooted (String "/" t) st = runN rooted t st.
Proof. done. Qed.

Lemma boundary_test (rest : string) :
  boundary rest → is_empty rest || head_sep rest = true.
Proof. intros [-> | Hs]; [done|]. rewrite Hs. apply orb_true_r. Qed.

Lemma span_elem_token (e rest : string) :
  sep_free e → boundary rest → span_elem (e ++ rest) = (e, rest).
Proof.
  intros He Hrest. induction e as [|c e IH].
  - destruct Hrest as [-> | Hs]; [done|]. destruct rest; [done|].
    simpl in *. by rewrite Hs.
  - destruct He as [Hc He]. rewrite string_app_cons. simpl.
    rewrite Hc, IH by done. done.
Qed.

Lemma runN_token rooted (e rest : string) st :
  sep_free e → boundary rest →
  runN rooted (e ++ rest) st = runN rooted rest (step rooted e st).
Proof.
  intros He Hrest. unfold step.
  destruct (decide (e = "")) as [->|Hne]; [done|].
  pose proof (boundary_test rest Hrest) as Htest.
  destruct (decide (e = ".")) as [->|Hdot].
  { unfold runN at 1. change ("." ++ rest) with (String "." rest).
    change (String.length (String "." rest)) with (S (String.length rest)).
    rewrite run_S. cbn -[run updots push span_elem is_empty head_sep].
    by rewrite Htest. }
  destruct (decide (e = "..")) as [->|Hdd].
  { unfold runN at 1. change (".." ++ rest) with (String "." (String "." rest)).
    change (String.length (String "." (String "." rest)))
      with (S (S (String.length rest))).
    rewrite run_S. cbn -[run updots push span_elem is_empty head_sep].
    rewrite Htest. apply run_runN. lia. }
  destruct e as [|c e]; [done|]. destruct He as [Hc He].
  unfold runN at 1. rewrite string_app_cons.
  change (String.length (String c (e ++ rest)))
    with (S (String.length (e ++ rest))).
  rewrite run_S, Hc.
  assert (Ascii.eqb c "."%char && (is_empty (e ++ rest) || head_sep (e ++ rest))
          = false) as ->.
  { destruct (Ascii.eqb_spec c "."%char) as [->|]; [|done]. simpl.
    destruct e as [|c' e]; [done|]. destruct He as [Hc' _].
    rewrite string_app_cons. simpl. by rewrite Hc'. }
  assert (Ascii.eqb c "."%char && head_dot (e ++ rest)
          && (is_empty (stail (e ++ rest)) || head_sep (stail (e ++ rest)))
          = false) as ->.
  { destruct (Ascii.eqb_spec c "."%char) as [->|]; [|done]. simpl.
    destruct e as [|c' e]; [done|]. destruct He as [Hc' He].
    rewrite string_app_cons. simpl.
    destruct (Ascii.eqb_spec c' "."%char) as [->|]; [|done]. simpl.
    destruct e as [|c'' e]; [done|]. destruct He as [Hc'' _].
    rewrite string_app_cons. simpl. by rewrite Hc''. }
  rewrite <- string_app_cons.
  rewrite (span_elem_token (String c e) rest) by done.
  apply run_runN. rewrite string_length_app. lia.
Qed.

(** ** A path as its list of elements *)

Lemma IsPathSeparator_true c : IsPathSeparator c = true → c = "/"%char.
Proof. apply Ascii.eqb_eq. Qed.

Lemma elements_nonempty (s : string) : path_elements s ≠ [].
Proof.
  induction s as [|c t IH]; [done|]. simpl.
  destruct (IsPathSeparator c); [done|]. by destruct (path_elements t).
Qed.

Lemma elements_sep_free (s : string) : Forall sep_free (path_elements s).
Proof.
  induction s as [|c t IH]; [by repeat constructor|]. simpl.
  destruct (IsPathSeparator c) eqn:Hc; [by constructor|].
  destruct (path_elements t) as [|e es]; [by repeat constructor|].
  apply Forall_cons in IH as [He Hes]. by repeat constructor.
Qed.

Lemma strings_Join_cons (e e' : string) (l : list string) sep :
  strings_Join (e :: e' :: l) sep = e ++ sep ++ strings_Join (e' :: l) sep.
Proof. reflexivity. Qed.

Lemma Join_elements (s : string) : strings_Join (path_elements s) "/" = s.
Proof.
  induction s as [|c t IH]; [done|]. simpl.
  destruct (IsPathSeparator c) eqn:Hc.
  - apply IsPathSeparator_true in Hc as ->.
    pose proof (elements_nonempty t) as Hne.
    destruct (path_elements t) as [|e es]; [done|].
    rewrite strings_Join_cons, IH. done.
  - pose proof (elements_nonempty t) as Hne.
    destruct (path_elements t) as [|e es]; [done|].
    destruct es as [|e' es].
    + simpl in *. by rewrite IH.
    + rewrite strings_Join_cons in *. by rewrite string_app_cons, IH.
Qed.

Lemma elements_token (e : string) : sep_free e → path_elements e = [e].
Proof.
  induction e as [|c e IH]; [done|]. intros [Hc He]. simpl.
  by rewrite Hc, IH.
Qed.

Lemma elements_app_sep (s t : string) :
  path_elements (s ++ String "/" t) = (path_elements s ++ path_elements t)%list.
Proof.
  induction s as [|c s IH]; [done|]. rewrite string_app_cons. simpl.
  destruct (IsPathSeparator c); [by rewrite IH|].
  rewrite IH. pose proof (elements_nonempty s) as Hne.
  by destruct (path_elements s).
Qed.

Lemma elements_Join (ts : list string) :
  ts ≠ [] → Forall sep_free ts → path_elements (strings_Join ts "/") = ts.
Proof.
  induction ts as [|e ts IH]; [done|]. intros _ Hfree.
  apply Forall_cons in Hfree as [He Hts].
  destruct ts as [|e' ts]; [by apply elements_token|].
  rewrite strings_Join_cons.
  change (e ++ "/" ++ strings_Join (e' :: ts) "/")
    with (e ++ String "/" (strings_Join (e' :: ts) "/")).
  rewrite elements_app_sep, elements_token, IH by done. done.
Qed.

Lemma runN_Join rooted (ts : list string) (rest : string) st :
  ts ≠ [] → Forall sep_free ts → boundary rest →
  runN rooted (strings_Join ts "/" ++ rest) st
  = runN rooted rest (steps rooted ts st).
Proof.
  revert st. induction ts as [|e ts IH]; [done|]. intros st _ Hfree Hrest.
  apply Forall_cons in Hfree as [He Hts].
  destruct ts as [|e' ts].
  - simpl. by apply runN_token.
  - rewrite strings_Join_cons, !string_app_assoc.
    rewrite runN_token; [|done|by right].
    change ("/" ++ strings_Join (e' :: ts) "/" ++ rest)
      with (String "/" (strings_Join (e' :: ts) "/" ++ rest)).
    rewrite runN_sep. by rewrite IH.
Qed.

(** The loop of [Clean] works through the elements of the path in order. *)
Lemma runN_elements rooted (s : string) st :
  runN rooted s st = steps rooted (path_elements s) st.
Proof.
  rewrite <- (Join_elements s) at 1. rewrite <- (string_app_nil_r (strings_Join _ _)).
  rewrite runN_Join; [done| apply elements_nonempty | apply elements_sep_free | by left].
Qed.

(** ** [Clean] on the elements of the path *)

Lemma Clean_steps (p : string) :
  p ≠ "" →
  filepath_Clean p = or_dot (steps (head_sep p) (path_elements p) (init (head_sep p))).1.
Proof.
  intros Hp. unfold filepath_Clean. rewrite decide_False by done.
  rewrite sep_at_sdrop. cbn [sdrop]. rewrite !Clean_loop_run.
  destruct p as [|c t]; [done|]. cbn [head_sep sdrop].
  destruct (IsPathSeparator c) eqn:Hc.
  - assert (steps true (path_elements (String c t)) (init true)
            = run (String.length (String c t)) true t ("/", 1)) as ->; [|done].
    cbn [path_elements]. rewrite Hc. cbn [init steps foldl]. unfold step at 2.
    rewrite (decide_True (P := "" = "")) by done.
    rewrite run_runN by (simpl; lia). by rewrite runN_elements.
  - assert (steps false (path_elements (String c t)) (init false)
            = run (String.length (String c t)) false (String c t) ("", 0))
      as ->; [|done].
    change (run (String.length (String c t)) false (String c t) ("", 0))
      with (runN false (String c t) ("", 0)).
    by rewrite runN_elements.
Qed.

(** ** The buffer of [Clean] is a cleaned path *)

Lemma Join_snoc (l : list string) (e : string) :
  l ≠ [] → strings_Join (l ++ [e]) "/" = strings_Join l "/" ++ "/" ++ e.
Proof.
  induction l as [|a l IH]; [done|]. intros _.
  destruct l as [|b l]; [done|].
  change ((a :: b :: l) ++ [e])%list with (a :: b :: (l ++ [e]))%list.
  rewrite !strings_Join_cons.
  change (b :: (l ++ [e]))%list with ((b :: l) ++ [e])%list.
  rewrite IH by done. by rewrite !string_app_assoc.
Qed.

Lemma Join_length_mono (l l' : list string) :
  String.length (strings_Join l "/") ≤ String.length (strings_Join (l ++ l') "/").
Proof.
  induction l as [|a l IH]; [simpl; lia|].
  destruct l as [|b l].
  - destruct l' as [|b' l']; [done|].
    change ([a] ++ b' :: l')%list with (a :: b' :: l')%list.
    rewrite strings_Join_cons, string_length_app. simpl. lia.
  - change ((a :: b :: l) ++ l')%list with (a :: b :: (l ++ l'))%list.
    rewrite !strings_Join_cons, !string_length_app.
    change (b :: (l ++ l'))%list with ((b :: l) ++ l')%list. lia.
Qed.

Lemma Join_empty (l : list string) :
  Forall (λ e, e ≠ "") l → strings_Join l "/" = "" → l = [].
Proof.
  intros Hne HJ. destruct l as [|a l]; [done|].
  apply Forall_cons in Hne as [Ha _].
  destruct l as [|b l]; [done|]. rewrite strings_Join_cons in HJ.
  by destruct a.
Qed.

Lemma tokens_nonempty us (es : list string) :
  Forall regular es → Forall (λ e, e ≠ "") (replicate us ".." ++ es).
Proof.
  intros Hes. apply Forall_app. split.
  - apply Forall_replicate. done.
  - eapply Forall_impl; [exact Hes|]. by intros e (? & _).
Qed.

Lemma tokens_sep_free us (es : list string) :
  Forall regular es → Forall sep_free (replicate us ".." ++ es).
Proof.
  intros Hes. apply Forall_app. split.
  - apply Forall_replicate. by repeat split.
  - eapply Forall_impl; [exact Hes|]. by intros e (_ & ? & _).
Qed.

Lemma string_length_zero (s : string) : String.length s = 0 → s = "".
Proof. by destruct s. Qed.

Lemma push_St rooted us es e :
  valid rooted us es → regular e →
  push rooted e (St rooted us es) = St rooted us (es ++ [e]).
Proof.
  intros [Hus Hes] He. unfold push, St. cbn [fst snd]. f_equal.
  unfold render. rewrite (assoc_L (++)%list).
  pose proof (tokens_nonempty us es Hes) as Hne.
  set (ts := (replicate us ".." ++ es)%list) in *.
  destruct rooted; cbn [andb orb negb].
  - rewrite string_length_app. cbn [String.length].
    destruct (Nat.eqb_spec (1 + String.length (strings_Join ts "/")) 1) as [Hl|Hl];
      cbn [negb orb andb].
    + assert (ts = []) as -> by (apply Join_empty; [done|apply string_length_zero; lia]).
      done.
    + assert (ts ≠ []) as Hts by (intros ->; simpl in Hl; lia).
      rewrite Join_snoc by done. by rewrite !string_app_assoc.
  - change ("" ++ strings_Join ts "/") with (strings_Join ts "/").
    change ("" ++ strings_Join (ts ++ [e]) "/") with (strings_Join (ts ++ [e]) "/").
    destruct (Nat.eqb_spec (String.length (strings_Join ts "/")) 0) as [Hl|Hl];
      cbn [negb orb andb].
    + assert (ts = []) as -> by (apply Join_empty; [done|by apply string_length_zero]).
      done.
    + assert (ts ≠ []) as Hts by (intros ->; simpl in Hl; lia).
      rewrite Join_snoc by done. by rewrite !string_app_assoc.
Qed.

Lemma sep_free_sdrop (s : string) i : sep_free s → head_sep (sdrop i s) = false.
Proof.
  revert i. induction s as [|c s IH]; intros i Hs; [by destruct i|].
  destruct Hs as [Hc Hs]. destruct i as [|i]; [done|]. by apply IH.
Qed.

Lemma backtrack_loop_app (x y : string) c dotdot j :
  sep_free y → dotdot ≤ String.length x →
  String.length x = dotdot ∨ IsPathSeparator c = true →
  j ≤ String.length y →
  backtrack_loop (x ++ String c y) dotdot (String.length x + j)
  = String.length x.
Proof.
  intros Hy Hdd Hstop. induction j as [|j IH]; intros Hj.
  - rewrite Nat.add_0_r. destruct (String.length x) as [|w] eqn:Hw; [done|].
    cbn [backtrack_loop]. rewrite sep_at_sdrop, <- Hw, sdrop_app. cbn [head_sep].
    destruct Hstop as [Hstop | ->].
    + rewrite (proj2 (Nat.ltb_ge _ _)) by lia. done.
    + by rewrite andb_false_r.
  - replace (String.length x + S j) with (S (String.length x + j)) by lia.
    cbn [backtrack_loop].
    rewrite (proj2 (Nat.ltb_lt _ _)) by lia.
    rewrite sep_at_sdrop.
    replace (S (String.length x + j)) with (String.length x + S j) by lia.
    rewrite sdrop_add, sdrop_app. cbn [sdrop].
    rewrite sep_free_sdrop by done. cbn [negb andb].
    apply IH. lia.
Qed.

Lemma backtrack_app (x y : string) c dotdot :
  sep_free y → dotdot ≤ String.length x →
  String.length x = dotdot ∨ IsPathSeparator c = true →
  backtrack (x ++ String c y) dotdot = x.
Proof.
  intros Hy Hdd Hstop. unfold backtrack.
  rewrite string_length_app. cbn [String.length].
  replace (String.length x + S (String.length y) - 1)
    with (String.length x + String.length y) by lia.
  rewrite backtrack_loop_app by done. apply substring_0_app.
Qed.

Lemma render_length_mono rooted us es :
  String.length (render rooted us []) ≤ String.length (render rooted us es).
Proof.
  unfold render. rewrite !string_length_app.
  pose proof (Join_length_mono (replicate us "..") es).
  rewrite app_nil_r. lia.
Qed.

(** A [..] takes back the element that was appended last. *)
Lemma updots_push rooted us es e :
  valid rooted us es → regular e →
  updots rooted (push rooted e (St rooted us es)) = St rooted us es.
Proof.
  intros Hv (Hne & Hfree & _). pose proof (render_length_mono rooted us es) as Hmono.
  unfold updots, push, St. cbn [fst snd].
  set (x := render rooted us es) in *. set (dd := String.length (render rooted us [])) in *.
  destruct e as [|c e]; [done|]. destruct Hfree as [Hc Hfree].
  set (sepd := (rooted && negb (String.length x =? 1))
               || (negb rooted && negb (String.length x =? 0))).
  assert (sepd = false → String.length x = dd) as Hnosep.
  { unfold sepd. intros Hs. destruct Hv as [Hus _].
    destruct rooted; cbn [andb orb negb] in Hs.
    - rewrite orb_false_r in Hs.
      apply negb_false_iff, Nat.eqb_eq in Hs. rewrite Hs.
      unfold dd, render. rewrite Hus by done. done.
    - apply negb_false_iff, Nat.eqb_eq in Hs. lia. }
  destruct sepd.
  - rewrite string_app_assoc. change ("/" ++ String c e) with (String "/" (String c e)).
    rewrite (proj2 (Nat.ltb_lt _ _))
      by (rewrite string_length_app; simpl; lia).
    f_equal. apply backtrack_app; [done|lia|by right].
  - rewrite (proj2 (Nat.ltb_lt _ _))
      by (rewrite string_length_app; simpl; lia).
    f_equal. apply backtrack_app; [done|lia|left; by apply Hnosep].
Qed.

Lemma updots_empty_unrooted us :
  updots false (St false us []) = St false (S us) [].
Proof.
  unfold updots, St. cbn [fst snd]. rewrite Nat.ltb_irrefl. cbn [negb].
  unfold render. rewrite !app_nil_r.
  change ("" ++ strings_Join (replicate us "..") "/")
    with (strings_Join (replicate us "..") "/").
  change ("" ++ strings_Join (replicate (S us) "..") "/")
    with (strings_Join (replicate (S us) "..") "/").
  assert ((if 0 <? String.length (strings_Join (replicate us "..") "/")
           then strings_Join (replicate us "..") "/" ++ "/"
           else strings_Join (replicate us "..") "/") ++ ".."
          = strings_Join (replicate (S us) "..") "/") as ->; [|done].
  rewrite replicate_S_end. destruct us as [|us]; [done|].
  rewrite Join_snoc by done.
  rewrite (proj2 (Nat.ltb_lt _ _)); [by rewrite string_app_assoc|].
  simpl. destruct us; simpl; lia.
Qed.

Lemma updots_empty_rooted : updots true (St true 0 []) = St true 0 [].
Proof. reflexivity. Qed.

Lemma step_regular rooted us es e :
  valid rooted us es → regular e →
  step rooted e (St rooted us es) = St rooted us (es ++ [e]).
Proof.
  intros Hv He. pose proof He as (H1 & _ & H2 & H3). unfold step.
  rewrite !decide_False by done. by apply push_St.
Qed.

Lemma valid_snoc rooted us es e :
  valid rooted us es → regular e → valid rooted us (es ++ [e]).
Proof.
  intros [Hus Hes] He. split; [done|]. apply Forall_app.
  split; [done|]. by apply Forall_singleton.
Qed.

(** The loop keeps its state in this form. *)
Lemma steps_valid rooted (ts : list string) us es :
  Forall sep_free ts → valid rooted us es →
  ∃ us' es', valid rooted us' es'
    ∧ steps rooted ts (St rooted us es) = St rooted us' es'.
Proof.
  revert us es. induction ts as [|e ts IH]; intros us es Hts Hv.
  - by exists us, es.
  - apply Forall_cons in Hts as [He Hts]. cbn [steps foldl].
    assert (∃ us1 es1, valid rooted us1 es1
              ∧ step rooted e (St rooted us es) = St rooted us1 es1)
      as (us1 & es1 & Hv1 & ->).
    { unfold step. destruct (decide (e = "")) as [Hy1|Hn1]; [by exists us, es|].
      destruct (decide (e = ".")) as [Hy2|Hn2]; [by exists us, es|].
      destruct (decide (e = "..")) as [Hy3|Hn3].
      - destruct es as [|e0 es0 _] using rev_ind.
        + destruct rooted.
          * destruct Hv as [Hus _]. rewrite Hus by done. by exists 0, [].
          * exists (S us), []. split; [by split|]. apply updots_empty_unrooted.
        + destruct Hv as [Hus Hes]. apply Forall_app in Hes as [Hes0 He0].
          apply Forall_inv in He0.
          assert (valid rooted us es0) as Hv0 by (by split).
          exists us, es0. split; [done|].
          rewrite <- (push_St rooted us es0 e0 Hv0 He0). by apply updots_push.
      - exists us, (es ++ [e])%list.
        assert (regular e) by done.
        split; [by apply valid_snoc|]. by apply push_St. }
    by apply IH.
Qed.

Lemma steps_regulars rooted (es' : list string) us es :
  Forall regular es' → valid rooted us es →
  steps rooted es' (St rooted us es) = St rooted us (es ++ es').
Proof.
  revert es. induction es' as [|e es' IH]; intros es Hes' Hv.
  - by rewrite app_nil_r.
  - apply Forall_cons in Hes' as [He Hes']. cbn [steps foldl].
    rewrite step_regular by done. fold (steps rooted es' (St rooted us (es ++ [e]))).
    rewrite IH; [|done|by apply valid_snoc]. by rewrite <- (assoc_L (++)%list).
Qed.

Lemma steps_dotdots us k :
  steps false (replicate us "..") (St false k []) = St false (k + us) [].
Proof.
  revert k. induction us as [|us IH]; intros k; [by rewrite Nat.add_0_r|].
  cbn [replicate steps foldl]. unfold step at 2. cbn [decide].
  rewrite !decide_False by done. rewrite decide_True by done.
  rewrite updots_empty_unrooted. fold (steps false (replicate us "..") (St false (S k) [])).
  rewrite IH. by replace (k + S us) with (S k + us) by lia.
Qed.

Lemma steps_app rooted (l l' : list string) st :
  steps rooted (l ++ l') st = steps rooted l' (steps rooted l st).
Proof. apply foldl_app. Qed.

Lemma init_St rooted : init rooted = St rooted 0 [].
Proof. by destruct rooted. Qed.

Lemma or_dot_nonempty (out : string) : or_dot out ≠ "".
Proof. unfold or_dot. by case_decide. Qed.

Lemma Join_head_sep (ts : list string) :
  Forall sep_free ts → Forall (λ e, e ≠ "") ts →
  head_sep (strings_Join ts "/") = false.
Proof.
  intros Hfree Hne. destruct ts as [|e ts]; [done|].
  apply Forall_cons in Hfree as [He _]. apply Forall_cons in Hne as [Hne _].
  destruct e as [|c e]; [done|]. destruct He as [Hc _].
  destruct ts; [done|]. by rewrite strings_Join_cons, string_app_cons.
Qed.

Lemma cleaned_head_sep rooted us es :
  valid rooted us es → head_sep (or_dot (render rooted us es)) = rooted.
Proof.
  intros [Hus Hes]. unfold or_dot, render. destruct rooted; [done|].
  change ("" ++ strings_Join (replicate us ".." ++ es) "/")
    with (strings_Join (replicate us ".." ++ es) "/").
  case_decide; [done|].
  apply Join_head_sep; [by apply tokens_sep_free | by apply tokens_nonempty].
Qed.

(** Cleaning a cleaned path goes through the same states. *)
Lemma steps_cleaned rooted us es :
  valid rooted us es →
  steps rooted (path_elements (or_dot (render rooted us es))) (init rooted)
  = St rooted us es.
Proof.
  intros Hv. pose proof Hv as [Hus Hes]. unfold or_dot, render.
  pose proof (tokens_sep_free us es Hes) as Hfree.
  pose proof (tokens_nonempty us es Hes) as Hne.
  destruct rooted.
  - rewrite Hus in * by done. cbn [replicate app] in *.
    rewrite decide_False by done.
    change ("/" ++ strings_Join es "/") with (String "/" (strings_Join es "/")).
    assert (path_elements (String "/" (strings_Join es "/"))
            = "" :: path_elements (strings_Join es "/")) as -> by done.
    assert (∀ l st, steps true ("" :: l) st = steps true l st) as -> by done.
    destruct es as [|e es]; [done|].
    rewrite elements_Join by done. rewrite init_St.
    by rewrite steps_regulars.
  - change ("" ++ strings_Join (replicate us ".." ++ es) "/")
      with (strings_Join (replicate us ".." ++ es) "/").
    case_decide as Hempty.
    + apply Join_empty in Hempty; [|done].
      apply app_eq_nil in Hempty as [Hrep ->].
      destruct us; [done|done].
    + rewrite elements_Join; [|by intros Hnil; rewrite Hnil in Hempty|done].
      rewrite steps_app, init_St, steps_dotdots. by rewrite steps_regulars.
Qed.

Lemma Clean_form (p : string) :
  p ≠ "" →
  ∃ us es, valid (head_sep p) us es
    ∧ steps (head_sep p) (path_elements p) (init (head_sep p)) = St (head_sep p) us es
    ∧ filepath_Clean p = or_dot (render (head_sep p) us es).
Proof.
  intros Hp. rewrite (Clean_steps p Hp), init_St.
  destruct (steps_valid (head_sep p) (path_elements p) 0 [])
    as (us & es & Hv & ->); [apply elements_sep_free | by split |].
  by exists us, es.
Qed.

Lemma Clean_of_form rooted us es :
  valid rooted us es →
  filepath_Clean (or_dot (render rooted us es)) = or_dot (render rooted us es).
Proof.
  intros Hv. rewrite Clean_steps by apply or_dot_nonempty.
  by rewrite cleaned_head_sep, steps_cleaned.
Qed.

(** [Clean] is idempotent. *)
Lemma Clean_idemp (p : string) :
  filepath_Clean (filepath_Clean p) = filepath_Clean p.
Proof.
  destruct (decide (p = "")) as [->|Hp]; [done|].
  destruct (Clean_form p Hp) as (us & es & Hv & _ & ->).
  by apply Clean_of_form.
Qed.





(** ** [Dir] and [Base] split a path at its last separator *)













Lemma walk_dir fs cur e ts k :
  walk fs cur (e :: ts) = inl k →
  node fs cur = Some DirectoryNode ∧ walk fs (enter cur e) ts = inl k.
Proof. simpl. by destruct (node fs cur) as [[?|]|]. Qed.








Lemma node_root fs : node fs [] = Some DirectoryNode.
Proof. done. Qed.



(** ** Writing a file *)

Lemma FileSystem_eq (fs fs' : FileSystem) :
  nodes fs = nodes fs' → cwd fs = cwd fs' → fs = fs'.
Proof. destruct fs, fs'. simpl. by intros -> ->. Qed.

Lemma lookup_namei fs (name : string) k :
  namei fs name = inl k → fs !! name = node fs k.
Proof. intros Hk. unfold lookup, FileSystem_lookup. by rewrite Hk. Qed.

Lemma lookup_Some_namei (fs : FileSystem) (name : string) n :
  fs !! name = Some n → ∃ k, namei fs name = inl k ∧ node fs k = Some n.
Proof.
  unfold lookup, FileSystem_lookup.
  destruct (namei fs name) as [k|e]; [|done]. by exists k.
Qed.

Lemma insert_namei fs (name : string) k n :
  namei fs name = inl k →
  <[name := n]> fs = {| nodes := <[k := n]> (nodes fs); cwd := cwd fs |}.
Proof. intros Hk. unfold insert, FileSystem_insert. by rewrite Hk. Qed.

Lemma node_Some_regular fs k contents :
  node fs k = Some (RegularFile contents) →
  nodes fs !! k = Some (RegularFile contents).
Proof. unfold node. by case_decide. Qed.

Lemma node_insert_eq fs k contents :
  node fs k ≠ Some DirectoryNode →
  node {| nodes := <[k := RegularFile contents]> (nodes fs); cwd := cwd fs |} k
  = Some (RegularFile contents).
Proof.
  unfold node. case_decide; [done|]. intros _. simpl.
  by rewrite lookup_insert_eq.
Qed.

Lemma node_insert_ne fs k n k' :
  k' ≠ k →
  node {| nodes := <[k := n]> (nodes fs); cwd := cwd fs |} k' = node fs k'.
Proof.
  intros Hne. unfold node. case_decide; [done|]. simpl.
  by rewrite lookup_insert_ne.
Qed.

Lemma dir_insert fs k contents k' :
  node fs k ≠ Some DirectoryNode →
  node {| nodes := <[k := RegularFile contents]> (nodes fs); cwd := cwd fs |} k'
  = Some DirectoryNode
  ↔ node fs k' = Some DirectoryNode.
Proof.
  intros Hk. destruct (decide (k' = k)) as [->|Hne].
  - rewrite node_insert_eq by done. split; [done|]. by intros ?.
  - by rewrite node_insert_ne.
Qed.

Lemma walk_dirs fs fs' cur (ts : list string) k :
  (∀ k', node fs k' = Some DirectoryNode → node fs' k' = Some DirectoryNode) →
  walk fs cur ts = inl k → walk fs' cur ts = inl k.
Proof.
  intros Hdir. revert cur. induction ts as [|e ts IH]; intros cur; [done|].
  intros [Hcur Hwalk]%walk_dir. simpl. rewrite (Hdir cur Hcur). by apply IH.
Qed.

Lemma namei_dirs fs fs' (name : string) k :
  cwd fs' = cwd fs →
  (∀ k', node fs k' = Some DirectoryNode → node fs' k' = Some DirectoryNode) →
  namei fs name = inl k → namei fs' name = inl k.
Proof.
  intros Hcwd Hdir. unfold namei. case_decide; [done|]. rewrite Hcwd.
  by apply walk_dirs.
Qed.

(** Writing a file changes no directory, so every name leads where it led
    before. *)
Lemma namei_insert fs (w : string) contents (name : string) k :
  writable fs w →
  namei (<[w := RegularFile contents]> fs) name = inl k
  ↔ namei fs name = inl k.
Proof.
  intros (kw & Hw & Hnode). rewrite (insert_namei fs w kw) by done.
  split; apply namei_dirs; try done.
  all: intros k'; by rewrite dir_insert.
Qed.

Lemma lookup_insert_written fs (w : string) contents :
  writable fs w →
  <[w := RegularFile contents]> fs !! w = Some (RegularFile contents).
Proof.
  intros Hw. pose proof Hw as (k & Hk & Hnode).
  rewrite (lookup_namei _ w k) by (by apply namei_insert).
  rewrite (insert_namei fs w k) by done. by apply node_insert_eq.
Qed.

Lemma lookup_insert_other fs (w : string) contents (other : string) :
  writable fs w →
  namei fs other ≠ namei fs w →
  <[w := RegularFile contents]> fs !! other = fs !! other.
Proof.
  intros Hw Hne. pose proof Hw as (k & Hk & Hnode).
  unfold lookup, FileSystem_lookup.
  destruct (namei fs other) as [k0|e] eqn:Hother.
  - rewrite (proj2 (namei_insert fs w contents other k0 Hw)) by done.
    rewrite (insert_namei fs w k) by done.
    apply node_insert_ne. intros ->. by rewrite Hk in Hne.
  - destruct (namei (<[w:=RegularFile contents]> fs) other) as [k0|e'] eqn:Hnew;
      [|done].
    apply (namei_insert fs w contents other k0 Hw) in Hnew. congruence.
Qed.

Lemma writable_insert fs (w : string) contents :
  writable fs w → writable (<[w := RegularFile contents]> fs) w.
Proof.
  intros Hw. pose proof Hw as (k & Hk & Hnode). exists k.
  split; [by apply namei_insert|].
  rewrite (insert_namei fs w k) by done. by rewrite node_insert_eq.
Qed.

Lemma lookup_regular_writable (fs : FileSystem) (w : string) contents :
  fs !! w = Some (RegularFile contents) → writable fs w.
Proof.
  intros (k & Hk & Hnode)%lookup_Some_namei. exists k. split; [done|].
  by rewrite Hnode.
Qed.

Lemma insert_insert_written fs (w : string) c1 c2 :
  writable fs w →
  <[w := RegularFile c2]> (<[w := RegularFile c1]> fs)
  = <[w := RegularFile c2]> fs.
Proof.
  intros Hw. pose proof Hw as (k & Hk & Hnode).
  rewrite (insert_namei (<[w := RegularFile c1]> fs) w k)
    by (by apply namei_insert).
  rewrite !(insert_namei fs w k) by done. simpl.
  by rewrite insert_insert_eq.
Qed.

Lemma insert_id_written (fs : FileSystem) (w : string) contents :
  fs !! w = Some (RegularFile contents) →
  <[w := RegularFile contents]> fs = fs.
Proof.
  intros (k & Hk & Hnode)%lookup_Some_namei.
  rewrite (insert_namei fs w k) by done.
  apply FileSystem_eq; [|done]. simpl.
  by apply insert_id, node_Some_regular.
Qed.


(** ** A name that ends in a separator names a directory *)




End path_facts.

Lemma resolve_files σ σ' configPath :
  files σ' = files σ → resolve σ' configPath = resolve σ configPath.
Proof.
  intros Hf.
  assert (∀ ext, bool_decide (candidate_matches σ' configPath ext)
                 = bool_decide (candidate_matches σ configPath ext)) as Heq.
  { intros ext. apply bool_decide_ext. unfold candidate_matches. by rewrite Hf. }
  unfold resolve. cbn [supportedExts List.find]. by rewrite !Heq.
Qed.



(** ** The heap *)

Lemma env_alloc_fresh e σ :
  ∃ q, env_alloc e σ = (q, set_envs <[q := e]> σ) ∧ envs σ !! q = None.
Proof.
  eexists. split; [reflexivity|].
  apply (not_elem_of_dom (D := gset loc)), is_fresh.
Qed.

Section store_facts.
Context `{Externals}.

Lemma newEnv_outcome name initial overrides σ :
  match mergeEnv Default name initial overrides with
  | inl e => ∃ q, newEnv name initial overrides σ
                  = ((Some q, None), set_envs <[q := e]> σ)
                ∧ envs σ !! q = None
  | inr err => newEnv name initial overrides σ = ((None, Some err), σ)
  end.
Proof.
  unfold newEnv. destruct (mergeEnv _ _ _ _) as [e|err]; [|done].
  destruct (env_alloc_fresh e σ) as (q & Hq & Hfresh).
  exists q. split; [|done]. unfold mbind, M_bind. by rewrite Hq.
Qed.

(** ** Get *)

(** The three outcomes of [Get]. *)
Lemma Get_cases (c : Conf) (name : string) (overrides : list Env)
    (σ : World) :
  ∃ r σ', Get c name overrides σ = (r, σ')
    ∧ maps σ' = maps σ ∧ envs σ ⊆ envs σ' ∧ files σ' = files σ
    ∧ match (maps σ !!! Envs c) !! name with
      | None => r = (None, Some ErrEnvDoesNotExist) ∧ σ' = σ
      | Some None => r = (None, Some ErrEnvNotDefined) ∧ σ' = σ
      | Some (Some p) =>
          match mergeEnv Default name (envs σ !!! p) (osEnv c :: overrides) with
          | inl e => ∃ q, r = (Some q, None) ∧ envs σ !! q = None
                          ∧ σ' = set_envs <[q := e]> σ
          | inr err => r = (None, Some err) ∧ σ' = σ
          end
      end.
Proof.
  unfold Get, mbind, M_bind, map_get, env_load, gets. simpl.
  destruct ((maps σ !!! Envs c) !! name) as [[p|]|] eqn:Hlook; simpl.
  - pose proof (newEnv_outcome name (envs σ !!! p) (osEnv c :: overrides) σ) as Hnew.
    destruct (mergeEnv _ _ _ _) as [e|err].
    + destruct Hnew as (q & -> & Hfresh).
      eexists _, _. split; [done|]. repeat split; [|by eauto].
      simpl. by apply insert_subseteq.
    + rewrite Hnew. by eexists _, _.
  - by eexists _, _.
  - by eexists _, _.
Qed.

(** C8.  [Get] of a name that is no key fails with [EnvDoesNotExist]; of
    a name whose entry is nil, with [EnvNotDefined]; for an entry that is
    not nil it runs the merge with the chain [osEnv] then the overrides on
    top of the stored value and returns the result in a new object.  In
    every case the map objects and the Env objects that existed are left
    as they were. *)
Theorem Get_outcomes (c : Conf) (name : string) (overrides : list Env)
    (σ : World) :
  ∃ r σ', Get c name overrides σ = (r, σ')
    ∧ maps σ' = maps σ ∧ envs σ ⊆ envs σ' ∧ files σ' = files σ
    ∧ match (maps σ !!! Envs c) !! name with
      | None => r = (None, Some ErrEnvDoesNotExist) ∧ σ' = σ
      | Some None => r = (None, Some ErrEnvNotDefined) ∧ σ' = σ
      | Some (Some p) =>
          match mergeEnv Default name (envs σ !!! p) (osEnv c :: overrides) with
          | inl e => ∃ q, r = (Some q, None) ∧ envs σ !! q = None
                          ∧ σ' = set_envs <[q := e]> σ
          | inr err => r = (None, Some err) ∧ σ' = σ
          end
      end.
Proof. apply Get_cases. Qed.


(** ** validate *)

Lemma validate_loop (l : list (string * option loc)) (acc : list string) σ :
  foldM l acc (λ errors '(_, env),
    match env with
    | None => mret errors
    | Some p =>
        e ← env_load p;
        match Env_validate e with
        | Some err => mret (errors ++ [Error err])%list
        | None => mret errors
        end
    end) σ = ((acc ++ omap (failure_at σ) l)%list, σ).
Proof.
  revert acc. induction l as [|[k [p|]] l IH]; intros acc; simpl.
  - by rewrite app_nil_r.
  - unfold mbind, M_bind, env_load, gets at 1. simpl.
    unfold failure_at at 1, invalid_message. simpl.
    destruct (Env_validate (envs σ !!! p)) as [err|]; simpl.
    + unfold mret, M_ret at 1. rewrite IH. by rewrite <- app_assoc.
    + unfold mret, M_ret at 1. by rewrite IH.
  - unfold mbind, M_bind, mret, M_ret at 1. by rewrite IH.
Qed.

Lemma failures_view `{!RangeLaw} σ (m : gmap string (option loc)) :
  omap (failure_at σ) (range_order m) ≡ₚ invalid_messages (deref σ <$> m).
Proof.
  unfold invalid_messages. rewrite range_order_perm, map_to_list_fmap.
  induction (map_to_list m) as [|[k p] l IH]; [done|].
  csimpl. unfold failure_at at 1. simpl.
  destruct (invalid_message _); by rewrite IH.
Qed.

Lemma validate_eq c σ :
  validate c σ
  = (match omap (failure_at σ) (range_order (maps σ !!! Envs c)) with
     | [] => None
     | errs => Some (Errorf ("invalid config " ++ strings_Join errs ","))
     end, σ).
Proof.
  unfold validate, mbind, M_bind, map_get, gets at 1.
  rewrite validate_loop. simpl.
  by destruct (omap _ _).
Qed.

(** C9.  Store-level validation skips nil entries and gathers the message
    of every Env that fails Env-level validation: it returns one error
    whose message holds all of them, joined by a comma, so the message of
    each failing entry occurs in it. *)
Theorem validate_aggregates `{!RangeLaw} (c : Conf) (σ : World) :
  ∃ errs, errs ≡ₚ invalid_messages (view σ (Envs c))
    ∧ validate c σ
      = (match errs with
         | [] => None
         | _ => Some (Errorf ("invalid config " ++ strings_Join errs ","))
         end, σ)
    ∧ (∀ name e err,
         view σ (Envs c) !! name = Some (Some e) →
         Env_validate e = Some err →
         ∃ msg, validate c σ = (Some (Errorf msg), σ)
                ∧ contains msg (Error err))
    ∧ (∀ name,
         view σ (Envs c) !! name = Some None →
         invalid_messages (view σ (Envs c))
         ≡ₚ invalid_messages (delete name (view σ (Envs c)))).
Proof.
  exists (omap (failure_at σ) (range_order (maps σ !!! Envs c))).
  pose proof (failures_view σ (maps σ !!! Envs c)) as Hperm.
  split; [exact Hperm|]. split; [rewrite validate_eq; by destruct (omap _ _)|].
  split.
  - intros name e err Hlook Hval. rewrite validate_eq.
    assert (Error err ∈ omap (failure_at σ) (range_order (maps σ !!! Envs c)))
      as Hin.
    { rewrite Hperm. apply list_elem_of_omap. exists (name, Some e).
      split; [by apply elem_of_map_to_list|].
      unfold invalid_message. simpl. by rewrite Hval. }
    destruct (omap _ _) as [|e0 errs] eqn:Herrs; [by apply elem_of_nil in Hin|].
    eexists. split; [done|]. by apply contains_app_l, strings_Join_contains.
  - intros name Hnil. unfold invalid_messages.
    by rewrite <- (map_to_list_delete _ name None Hnil).
Qed.

(** ** save *)

Lemma suppress_idemp e : suppress (suppress e) = suppress e.
Proof.
  destruct e as [d t]. unfold suppress. simpl.
  f_equal; repeat case_decide; congruence.
Qed.

Lemma save_entry_nil c k σ :
  save_entry c (k, None) σ
  = (tt, set_maps (λ h, <[Envs c := delete k (h !!! Envs c)]> h) σ).
Proof. reflexivity. Qed.

Lemma save_entry_env c k p σ :
  ∃ σ1, save_entry c (k, Some p) σ = (tt, σ1)
    ∧ maps σ1 = <[Envs c := <[k := Some p]> (maps σ !!! Envs c)]> (maps σ)
    ∧ envs σ1 !!! p = suppress (envs σ !!! p)
    ∧ (∀ q, q ≠ p → envs σ1 !! q = envs σ !! q)
    ∧ files σ1 = files σ ∧ environ σ1 = environ σ.
Proof.
  unfold save_entry, mbind, M_bind, env_load, env_store, map_store,
    modify, gets, mret, M_ret.
  destruct (envs σ !!! p) as [d t] eqn:He. unfold suppress. simpl.
  destruct (decide (d = Directory Default)) as [Hd|Hd]; simpl.
  - rewrite lookup_total_insert_eq. simpl.
    destruct (decide (t = Timeout Default)) as [Ht|Ht]; simpl.
    + eexists. split; [done|]. simpl. rewrite lookup_total_insert_eq.
      split_and!; try done. intros q Hq. by rewrite !lookup_insert_ne.
    + eexists. split; [done|]. simpl. rewrite lookup_total_insert_eq.
      split_and!; try done. intros q Hq. by rewrite !lookup_insert_ne.
  - rewrite He. simpl.
    destruct (decide (t = Timeout Default)) as [Ht|Ht]; simpl.
    + eexists. split; [done|]. simpl. rewrite lookup_total_insert_eq.
      split_and!; try done. intros q Hq. by rewrite !lookup_insert_ne.
    + eexists. split; [done|]. simpl. by rewrite He.
Qed.

Lemma save_loop c (l : list (string * option loc)) σ :
  NoDup l.*1 →
  (∀ k p, (k, p) ∈ l → (maps σ !!! Envs c) !! k = Some p) →
  ∃ σ', forM_ l (save_entry c) σ = (tt, σ')
    ∧ (∀ k, (maps σ' !!! Envs c) !! k
            = if decide ((k, None) ∈ l) then None
              else (maps σ !!! Envs c) !! k)
    ∧ (∀ j, j ≠ Envs c → maps σ' !! j = maps σ !! j)
    ∧ (∀ k p, (k, Some p) ∈ l → envs σ' !!! p = suppress (envs σ !!! p))
    ∧ (∀ q, (∀ k, (k, Some q) ∉ l) → envs σ' !! q = envs σ !! q)
    ∧ files σ' = files σ ∧ environ σ' = environ σ.
Proof.
  revert σ.
  induction l as [|[k0 o0] rest IH].
  all: intros σ Hnodup Hin.
  2: destruct o0 as [p0|].
  - exists σ. split; [done|]. split_and!; try done.
    intros k p Hk. by apply elem_of_nil in Hk.
  - apply NoDup_cons in Hnodup as [Hk0 Hnodup].
    destruct (save_entry_env c k0 p0 σ)
      as (σ1 & Hstep & Hmaps1 & Henv1 & Hother1 & Hfiles1 & Henviron1).
    assert ((maps σ !!! Envs c) !! k0 = Some (Some p0)) as Hk0m
      by (apply Hin; left).
    assert (maps σ1 !!! Envs c = maps σ !!! Envs c) as Hm1.
    { rewrite Hmaps1, lookup_total_insert_eq. by apply insert_id. }
    destruct (IH σ1 Hnodup) as (σ' & Hloop & Hm & Hj & Hp & Hq & Hf & He).
    { intros k p Hk. rewrite Hm1. apply Hin. by right. }
    exists σ'. split.
    { cbn [forM_]. unfold mbind, M_bind. by rewrite Hstep. }
    split_and!.
    + intros k. rewrite Hm, Hm1.
      destruct (decide ((k, None) ∈ rest)) as [Hr|Hr].
      * rewrite decide_True; [done|by right].
      * rewrite decide_False; [done|].
        intros [?|?]%elem_of_cons; [done|by apply Hr].
    + intros j Hne. rewrite Hj by done. rewrite Hmaps1.
      by rewrite lookup_insert_ne.
    + intros k p [[= -> ->]|Hk]%elem_of_cons.
      * destruct (decide (Some p0 ∈ rest.*2)) as [Hyes|Hno].
        -- apply list_elem_of_fmap in Hyes as ([k' o] & Ho & Hk').
           simpl in Ho. subst o.
           rewrite (Hp k' p0 Hk'), Henv1. apply suppress_idemp.
        -- rewrite <- Henv1. unfold lookup_total, map_lookup_total.
           f_equal. apply Hq. intros k' Hk'. apply Hno.
           apply list_elem_of_fmap. by exists (k', Some p0).
      * rewrite (Hp k p Hk). destruct (decide (p = p0)) as [->|Hne].
        -- rewrite Henv1. apply suppress_idemp.
        -- unfold lookup_total, map_lookup_total. by rewrite Hother1.
    + intros q Hnone. rewrite Hq.
      * apply Hother1. intros ->. apply (Hnone k0). by left.
      * intros k Hk. apply (Hnone k). by right.
    + congruence.
    + congruence.
  - apply NoDup_cons in Hnodup as [Hk0 Hnodup].
    set (σ1 := set_maps (λ h, <[Envs c := delete k0 (h !!! Envs c)]> h) σ).
    assert (maps σ1 !!! Envs c = delete k0 (maps σ !!! Envs c)) as Hm1.
    { unfold σ1. simpl. by rewrite lookup_total_insert_eq. }
    destruct (IH σ1 Hnodup) as (σ' & Hloop & Hm & Hj & Hp & Hq & Hf & He).
    { intros k p Hk. rewrite Hm1. rewrite lookup_delete_ne.
      - apply Hin. by right.
      - intros ->. apply Hk0. apply list_elem_of_fmap. by exists (k, p). }
    exists σ'. split.
    { cbn [forM_]. unfold mbind, M_bind. by rewrite save_entry_nil. }
    split_and!.
    + intros k. rewrite Hm, Hm1.
      destruct (decide ((k, None) ∈ rest)) as [Hr|Hr].
      * rewrite decide_True; [done|by right].
      * destruct (decide (k = k0)) as [->|Hne].
        -- rewrite decide_True by (by left). apply lookup_delete_eq.
        -- rewrite decide_False.
           ++ by apply lookup_delete_ne.
           ++ intros [[= ?]|?]%elem_of_cons; [done|by apply Hr].
    + intros j Hne. rewrite Hj by done. unfold σ1. simpl.
      by rewrite lookup_insert_ne.
    + intros k p [[= ]|Hk]%elem_of_cons. by rewrite (Hp k p Hk).
    + intros q Hnone. rewrite Hq; [done|].
      intros k Hk. apply (Hnone k). by right.
    + done.
    + done.
Qed.

Lemma save_cleanup `{!RangeLaw} c σ :
  ∃ σ', forM_ (range_order (maps σ !!! Envs c)) (save_entry c) σ = (tt, σ')
    ∧ cleaned c σ σ' ∧ files σ' = files σ.
Proof.
  set (m := maps σ !!! Envs c).
  assert (∀ k p, (k, p) ∈ range_order m ↔ m !! k = Some p) as Hin.
  { intros k p. rewrite range_order_perm. apply elem_of_map_to_list. }
  destruct (save_loop c (range_order m) σ)
    as (σ' & Hloop & Hm & Hj & Hp & Hq & Hf & He).
  { rewrite range_order_perm. apply NoDup_fst_map_to_list. }
  { intros k p. apply Hin. }
  exists σ'. split; [done|]. split; [|done]. unfold cleaned. fold m.
  split_and!; try done.
  - apply map_eq. intros k. rewrite Hm. fold m.
    destruct (m !! k) as [[p|]|] eqn:Hk.
    + rewrite decide_False by (rewrite Hin; congruence).
      symmetry. by apply map_lookup_filter_Some.
    + rewrite decide_True by (by apply Hin).
      symmetry. apply map_lookup_filter_None. right. intros x Hx.
      simpl. rewrite Hk in Hx. injection Hx as <-. by intros ?.
    + rewrite decide_False by (rewrite Hin; congruence).
      symmetry. apply map_lookup_filter_None. by left.
  - intros k p Hk. apply (Hp k). by apply Hin.
  - intros q Hnone. apply Hq. intros k Hk. by apply Hin, Hnone in Hk.
Qed.

Lemma cleaned_view_eq c σ σ' :
  cleaned c σ σ' → view σ' (Envs c) = cleaned_view (view σ (Envs c)).
Proof.
  intros (Hm & _ & Hp & _). apply map_eq. intros k.
  unfold view, cleaned_view. rewrite Hm, lookup_fmap, lookup_omap, lookup_fmap.
  destruct ((maps σ !!! Envs c) !! k) as [[p|]|] eqn:Hk; simpl.
  - rewrite (map_lookup_filter_Some_2 _ _ k (Some p)) by done. simpl.
    by rewrite (Hp k p Hk).
  - rewrite (proj2 (map_lookup_filter_None _ _ k)); [done|].
    right. intros x Hx. simpl. rewrite Hk in Hx. injection Hx as <-. by intros ?.
  - rewrite (proj2 (map_lookup_filter_None _ _ k)); [done|]. by left.
Qed.

(** What [save] does to the heap and to the file it writes. *)
Lemma save_outcome `{!RangeLaw} (c : Conf) (w : File) (σ : World) :
  ∃ err σ', save c w σ = (err, σ')
    ∧ cleaned c σ σ'
    ∧ view σ' (Envs c) = cleaned_view (view σ (Envs c))
    ∧ if decide (cleaned_view (view σ (Envs c)) = ∅)
      then err = Some ErrNoEnvironmentsDefined ∧ files σ' = files σ
      else
        match yaml_Marshal (cleaned_view (view σ (Envs c))) with
        | (bytes, None) =>
            match files σ !! w with
            | Some (RegularFile old) =>
                err = None
                ∧ files σ' = <[w := RegularFile (old ++ bytes)]> (files σ)
            | _ => err = Some (PathError "write" w EISDIR)
                   ∧ files σ' = files σ
            end
        | (_, Some msg) => err = Some (LibraryError msg) ∧ files σ' = files σ
        end.
Proof.
  destruct (save_cleanup c σ) as (σ1 & Hloop & Hclean & Hfiles).
  pose proof (cleaned_view_eq c σ σ1 Hclean) as Hview.
  assert (size (maps σ1 !!! Envs c) = 0%nat
          ↔ cleaned_view (view σ (Envs c)) = ∅) as Hsize.
  { rewrite <- Hview. unfold view. rewrite <- map_size_empty_iff.
    by rewrite map_size_fmap. }
  unfold save, mbind, M_bind, map_get, gets at 1. rewrite Hloop.
  unfold gets at 1. cbv beta iota.
  destruct (decide (cleaned_view (view σ (Envs c)) = ∅)) as [Hv|Hv].
  - rewrite decide_True by (by apply Hsize).
    by exists (Some ErrNoEnvironmentsDefined), σ1.
  - rewrite decide_False by (by intros ?%Hsize).
    unfold gets. rewrite Hview.
    destruct (yaml_Marshal _) as [bytes [msg|]].
    + exists (Some (LibraryError msg)), σ1. by rewrite <- Hview.
    + unfold File_Write. rewrite Hfiles.
      destruct (files σ !! w) as [[old|]|].
      * eexists _, _. split; [done|]. simpl. rewrite Hfiles.
        by split_and!.
      * eexists _, _. by rewrite <- Hview.
      * eexists _, _. by rewrite <- Hview.
Qed.

(** C6.  The pre-write pass of [save] deletes every key whose entry is
    nil and, in every Env that stays, resets to zero each field that equals
    the field of [Default]; it works in place, on the map object of the
    store and on the Env objects it points to, and what is then encoded and
    written is the mapping as cleaned. *)
Theorem save_cleans_in_place `{!RangeLaw} (c : Conf) (w : File) (σ : World) :
  ∃ err σ', save c w σ = (err, σ')
    ∧ cleaned c σ σ'
    ∧ view σ' (Envs c) = cleaned_view (view σ (Envs c))
    ∧ if decide (cleaned_view (view σ (Envs c)) = ∅)
      then err = Some ErrNoEnvironmentsDefined ∧ files σ' = files σ
      else
        match yaml_Marshal (cleaned_view (view σ (Envs c))) with
        | (bytes, None) =>
            match files σ !! w with
            | Some (RegularFile old) =>
                err = None
                ∧ files σ' = <[w := RegularFile (old ++ bytes)]> (files σ)
            | _ => err = Some (PathError "write" w EISDIR)
                   ∧ files σ' = files σ
            end
        | (_, Some msg) => err = Some (LibraryError msg) ∧ files σ' = files σ
        end.
Proof. apply save_outcome. Qed.

Lemma suppress_Default : suppress Default = Env_zero.
Proof. unfold suppress, Env_zero. by rewrite !decide_True. Qed.

Lemma cleaned_view_lookup v k :
  cleaned_view v !! k = v !! k ≫= clean_entry.
Proof. apply lookup_omap. Qed.

Lemma cleaned_view_empty v :
  cleaned_view v = ∅ ↔ ∀ k o, v !! k = Some o → o = None.
Proof.
  split.
  - intros Hv k o Hk. pose proof (cleaned_view_lookup v k) as Hl.
    rewrite Hv, lookup_empty, Hk in Hl. by destruct o.
  - intros Hnil. apply map_eq. intros k.
    rewrite cleaned_view_lookup, lookup_empty.
    destruct (v !! k) as [o|] eqn:Hk; [|done].
    by rewrite (Hnil k o Hk).
Qed.

Lemma view_lookup σ j k :
  view σ j !! k = deref σ <$> (maps σ !!! j) !! k.
Proof. apply lookup_fmap. Qed.

(** [Save] opens, and so truncates, the file before [save] runs. *)
Lemma Save_unfold c σ :
  Save c σ
  = match namei (files σ) (path c) with
    | inr e => (Some (PathError "open" (path c) e), σ)
    | inl k =>
        match node (files σ) k with
        | Some DirectoryNode => (Some (PathError "open" (path c) EISDIR), σ)
        | _ => save c (path c) (set_files <[path c := RegularFile ""]> σ)
        end
    end.
Proof.
  unfold Save, file, os_OpenFile, mbind, M_bind.
  destruct (namei (files σ) (path c)) as [k|e]; [|done].
  by destruct (node (files σ) k) as [[?|]|].
Qed.

Lemma file_opened c σ f σ0 :
  file c σ = ((f, None), σ0) →
  f = path c
  ∧ σ0 = set_files <[path c := RegularFile ""]> σ
  ∧ writable (files σ) (path c).
Proof.
  unfold file, os_OpenFile.
  destruct (namei (files σ) (path c)) as [k|e] eqn:Hk; [|done].
  destruct (node (files σ) k) as [[?|]|] eqn:Hnode; [|done|].
  all: intros [= <- <-]; split; [done|]; split; [done|].
  all: exists k; split; [done|]; by rewrite Hnode.
Qed.

Lemma file_writable c σ :
  writable (files σ) (path c) →
  file c σ = ((path c, None), set_files <[path c := RegularFile ""]> σ).
Proof.
  intros (k & Hk & Hnode). unfold file, os_OpenFile. rewrite Hk.
  by destruct (node (files σ) k) as [[?|]|].
Qed.

Lemma file_failed c σ :
  ¬ writable (files σ) (path c) →
  ∃ e, file c σ = ((path c, Some (PathError "open" (path c) e)), σ).
Proof.
  intros Hw. unfold file, os_OpenFile.
  destruct (namei (files σ) (path c)) as [k|e] eqn:Hk; [|by eexists].
  destruct (node (files σ) k) as [[?|]|] eqn:Hnode; [|by eexists|].
  all: exfalso; apply Hw; exists k; split; [done|]; by rewrite Hnode.
Qed.

Lemma Save_opened c σ :
  writable (files σ) (path c) →
  Save c σ = save c (path c) (set_files <[path c := RegularFile ""]> σ).
Proof.
  intros Hw. unfold Save, mbind, M_bind. by rewrite file_writable.
Qed.

Lemma Save_success_writable c σ σ' :
  Save c σ = (None, σ') → writable (files σ) (path c).
Proof.
  rewrite Save_unfold.
  destruct (namei (files σ) (path c)) as [k|e] eqn:Hk; [|done].
  destruct (node (files σ) k) as [[?|]|] eqn:Hnode; [|done|].
  all: intros _; exists k; split; [done|]; by rewrite Hnode.
Qed.

Lemma save_default_entry `{!RangeLaw} (c : Conf) (w : File)
    (σ : World) (name : string) (p : loc) :
  (maps σ !!! Envs c) !! name = Some (Some p) →
  envs σ !!! p = Default →
  ∃ err σ', save c w σ = (err, σ')
    ∧ err ≠ Some ErrNoEnvironmentsDefined
    ∧ (∀ k q, (maps σ !!! Envs c) !! k = Some (Some q) →
              (maps σ' !!! Envs c) !! k = Some (Some q))
    ∧ (maps σ' !!! Envs c) !! name = Some (Some p)
    ∧ envs σ' !!! p = Env_zero
    ∧ view σ' (Envs c) !! name = Some (Some Env_zero)
    ∧ (err = None →
         ∃ bytes old,
           yaml_Marshal (view σ' (Envs c)) = (bytes, None)
           ∧ files σ !! w = Some (RegularFile old)
           ∧ files σ' !! w = Some (RegularFile (old ++ bytes))).
Proof.
  intros Hname Hp.
  destruct (save_outcome c w σ) as (err & σ' & Hsave & Hc & Hview & Hout).
  assert (cleaned_view (view σ (Envs c)) !! name = Some (Some Env_zero)) as Hv.
  { rewrite cleaned_view_lookup, view_lookup, Hname. simpl.
    by rewrite Hp, suppress_Default. }
  exists err, σ'. split; [done|].
  destruct Hc as (Hm & _ & Hsup & _).
  rewrite decide_False in Hout
    by (intros Hempty; by rewrite Hempty, lookup_empty in Hv).
  split_and!.
  - destruct (yaml_Marshal _) as [bytes [msg|]].
    + by destruct Hout as [-> _].
    + destruct (files σ !! w) as [[old|]|]; by destruct Hout as [-> _].
  - intros k q Hk. rewrite Hm. by apply map_lookup_filter_Some.
  - rewrite Hm. by apply map_lookup_filter_Some.
  - by rewrite (Hsup name p Hname), Hp, suppress_Default.
  - by rewrite Hview.
  - intros ->. rewrite Hview.
    destruct (yaml_Marshal _) as [bytes [msg|]]; [by destruct Hout|].
    destruct (files σ !! w) as [[old|]|] eqn:Hfile; [|by destruct Hout..].
    destruct Hout as [_ ->]. exists bytes, old.
    split; [done|]. split; [done|].
    apply lookup_insert_written. by eapply lookup_regular_writable.
Qed.

(** C10.  The pre-write pass removes nil entries only: for a store that
    holds an Env all of whose fields equal those of [Default], [save], and so [Save], does
    not fail with [NoEnvironmentsDefined]; the key stays, and the entry is
    encoded and written with every field reset to zero. *)
Theorem save_keeps_default_entry `{!RangeLaw} (c : Conf) (σ : World)
    (name : string) (p : loc) :
  (maps σ !!! Envs c) !! name = Some (Some p) →
  envs σ !!! p = Default →
  (∀ w, ∃ err σ', save c w σ = (err, σ')
      ∧ err ≠ Some ErrNoEnvironmentsDefined
      ∧ (∀ k q, (maps σ !!! Envs c) !! k = Some (Some q) →
                (maps σ' !!! Envs c) !! k = Some (Some q))
      ∧ envs σ' !!! p = Env_zero
      ∧ view σ' (Envs c) !! name = Some (Some Env_zero)
      ∧ (err = None →
           ∃ bytes old,
             yaml_Marshal (view σ' (Envs c)) = (bytes, None)
             ∧ files σ !! w = Some (RegularFile old)
             ∧ files σ' !! w = Some (RegularFile (old ++ bytes))))
  ∧ (∃ err σ', Save c σ = (err, σ')
      ∧ err ≠ Some ErrNoEnvironmentsDefined
      ∧ (maps σ' !!! Envs c) !! name = Some (Some p)
      ∧ (err = None →
           envs σ' !!! p = Env_zero
           ∧ ∃ bytes,
               yaml_Marshal (view σ' (Envs c)) = (bytes, None)
               ∧ view σ' (Envs c) !! name = Some (Some Env_zero)
               ∧ files σ' !! path c = Some (RegularFile bytes))).
Proof.
  intros Hname Hp. split.
  - intros w.
    destruct (save_default_entry c w σ name p Hname Hp)
      as (err & σ' & Hsave & Herr & Hkeep & _ & Hzero & Hview & Hok).
    exists err, σ'. by split_and!.
  - destruct (save_default_entry c (path c)
                (set_files <[path c := RegularFile ""]> σ) name p Hname Hp)
      as (err & σ' & Hsave & Herr & _ & Hkey & Hzero & Hview & Hok).
    rewrite Save_unfold.
    destruct (namei (files σ) (path c)) as [k|e] eqn:Hk.
    2: { eexists _, _. by split_and!. }
    assert (node (files σ) k ≠ Some DirectoryNode →
            <[path c := RegularFile ""]> (files σ) !! path c
            = Some (RegularFile "")) as Hopen.
    { intros Hnode. apply lookup_insert_written. by exists k. }
    destruct (node (files σ) k) as [[old|]|] eqn:Hnode.
    2: { eexists _, _. by split_and!. }
    all: exists err, σ'; split; [done|]; split_and!; [done..|].
    all: intros Hnil; split; [done|].
    all: destruct (Hok Hnil) as (bytes & old' & Hm & Hold & Hnew).
    all: exists bytes; split_and!; [done..|].
    all: assert (Some (RegularFile old') = Some (RegularFile "")) as [= ->]
           by (rewrite <- Hold; by apply Hopen).
    all: exact Hnew.
Qed.

(** C1.  [Save] on a store whose entries are all nil fails with
    [NoEnvironmentsDefined], but the target file does not keep its prior
    contents: it was opened with [O_TRUNC] before the entries were looked
    at, and is left empty. *)
Theorem Save_of_nil_entries_truncates `{!RangeLaw} (c : Conf) (σ : World)
    (old : string) :
  (∀ k p, (maps σ !!! Envs c) !! k = Some p → p = None) →
  path c ≠ "" →
  files σ !! path c = Some (RegularFile old) →
  ∃ σ', Save c σ = (Some ErrNoEnvironmentsDefined, σ')
    ∧ files σ' !! path c = Some (RegularFile "").
Proof.
  intros Hnil Hpath Hfile.
  pose proof (lookup_regular_writable _ _ _ Hfile) as Hw.
  rewrite Save_opened by done.
  destruct (save_outcome c (path c)
              (set_files <[path c := RegularFile ""]> σ))
    as (err & σ' & Hsave & _ & _ & Hout).
  rewrite decide_True in Hout.
  - destruct Hout as [-> Hfiles]. exists σ'. split; [done|].
    rewrite Hfiles. simpl. by apply lookup_insert_written.
  - apply cleaned_view_empty. intros k o Hk.
    rewrite view_lookup in Hk. simpl in Hk.
    destruct ((maps σ !!! Envs c) !! k) as [q|] eqn:Hq; [|done].
    rewrite (Hnil k q Hq) in Hk. by injection Hk as <-.
Qed.

(** ** Decoding into the store *)

Lemma view_map_store σ m k p :
  view (set_maps (λ h, <[m := <[k := p]> (h !!! m)]> h) σ) m
  = <[k := deref σ p]> (view σ m).
Proof.
  unfold view. simpl. rewrite lookup_total_insert_eq. by rewrite fmap_insert.
Qed.

Lemma view_env_alloc σ m q e :
  allocated σ m → envs σ !! q = None →
  view (set_envs <[q := e]> σ) m = view σ m.
Proof.
  intros Hwf Hq. unfold view. simpl. apply map_fmap_ext.
  intros k [p|] Hk; [|done]. simpl. f_equal.
  destruct (Hwf k p Hk) as [e' He'].
  apply lookup_total_insert_ne. intros ->. congruence.
Qed.

Lemma store_decoded_list (m : loc) (l : list (string * option Env)) σ :
  NoDup l.*1 → allocated σ m →
  ∃ σ', forM_ l (λ '(k, v),
          match v with
          | None => map_store m k None
          | Some e => p ← env_alloc e; map_store m k (Some p)
          end) σ = (tt, σ')
    ∧ view σ' m = list_to_map l ∪ view σ m
    ∧ allocated σ' m
    ∧ files σ' = files σ ∧ environ σ' = environ σ.
Proof.
  revert σ. induction l as [|[k v] rest IH]; intros σ Hnodup Hwf.
  - exists σ. split; [done|]. split_and!; try done.
    by rewrite list_to_map_nil, (left_id_L ∅ (∪)).
  - apply NoDup_cons in Hnodup as [Hk Hnodup].
    assert (∃ σ1, (match v with
                   | None => map_store m k None
                   | Some e => p ← env_alloc e; map_store m k (Some p)
                   end) σ = (tt, σ1)
              ∧ view σ1 m = <[k := v]> (view σ m)
              ∧ allocated σ1 m
              ∧ files σ1 = files σ ∧ environ σ1 = environ σ)
      as (σ1 & Hstep & Hview1 & Hwf1 & Hf1 & He1).
    { destruct v as [e|].
      - destruct (env_alloc_fresh e σ) as (q & Hq & Hfresh).
        eexists. split.
        { unfold mbind, M_bind. rewrite Hq. reflexivity. }
        split_and!; try done.
        + rewrite view_map_store. simpl. rewrite lookup_total_insert_eq.
          f_equal. by apply view_env_alloc.
        + intros k' p. simpl. rewrite lookup_total_insert_eq.
          destruct (decide (k' = k)) as [->|Hne].
          * rewrite lookup_insert_eq. intros [= <-].
            rewrite lookup_insert_eq. by eexists.
          * rewrite lookup_insert_ne by done. intros Hk'.
            destruct (Hwf k' p Hk') as [e' He'].
            rewrite lookup_insert_ne by (intros ->; congruence). by eexists.
      - eexists. split; [reflexivity|]. split_and!; try done.
        + by rewrite view_map_store.
        + intros k' p. simpl. rewrite lookup_total_insert_eq.
          destruct (decide (k' = k)) as [->|Hne].
          * by rewrite lookup_insert_eq.
          * rewrite lookup_insert_ne by done. apply Hwf. }
    destruct (IH σ1 Hnodup Hwf1) as (σ' & Hloop & Hview & Hwf' & Hf & He).
    exists σ'. split.
    { cbn [forM_]. unfold mbind at 1, M_bind at 1. by rewrite Hstep. }
    split_and!; [|done|congruence..].
    rewrite Hview, Hview1. rewrite list_to_map_cons.
    rewrite <- insert_union_l. symmetry. apply insert_union_r.
    by apply not_elem_of_list_to_map_1.
Qed.

Lemma store_decoded_view (m : loc) (d : gmap string (option Env)) σ :
  allocated σ m →
  ∃ σ', store_decoded m d σ = (tt, σ')
    ∧ view σ' m = d ∪ view σ m
    ∧ files σ' = files σ ∧ environ σ' = environ σ.
Proof.
  intros Hwf. unfold store_decoded.
  destruct (store_decoded_list m (map_to_list d) σ)
    as (σ' & Hloop & Hview & _ & Hf & He);
    [apply NoDup_fst_map_to_list | done |].
  exists σ'. rewrite list_to_map_to_list in Hview. by split_and!.
Qed.

(** ** Load *)

Lemma New_outcome configPath σ :
  New configPath σ
  = ({| Envs := fresh (dom (maps σ)); osEnv := environ σ; path := configPath |},
     set_maps <[fresh (dom (maps σ)) := ∅]> σ).
Proof. reflexivity. Qed.

Lemma ReadFile_files name σ σ' :
  files σ' = files σ →
  ioutil_ReadFile name σ' = ((ioutil_ReadFile name σ).1, σ').
Proof. intros Hf. unfold ioutil_ReadFile, gets. simpl. by rewrite Hf. Qed.

Lemma validate_empty `{!RangeLaw} c σ :
  maps σ !!! Envs c = ∅ → validate c σ = (None, σ).
Proof.
  intros Hm. rewrite validate_eq, Hm.
  pose proof (range_order_perm ∅) as Hperm.
  rewrite map_to_list_empty in Hperm.
  apply Permutation_nil_r in Hperm. by rewrite Hperm.
Qed.

(** C2 (as amended).  Once path resolution has succeeded, a failure to
    read the file, whatever its cause, is not handed to the caller: [Load]
    skips decoding, goes on with the empty mapping and returns the result
    of store-level validation, which is no error. *)
Theorem Load_ignores_read_error `{!RangeLaw} (configPath : string)
    (σ : World) (found ext contents : string) (err : error) :
  searchConfigPath configPath σ = ((found, ext, None), σ) →
  ioutil_ReadFile found σ = ((contents, Some err), σ) →
  ∃ conf σ', Load configPath σ = ((conf, None), σ')
    ∧ maps σ' !!! Envs conf = ∅
    ∧ envs σ' = envs σ ∧ files σ' = files σ.
Proof.
  intros Hsearch Hread. rewrite searchConfigPath_resolve in Hsearch.
  injection Hsearch as Hresolve.
  unfold Load, mbind, M_bind. rewrite New_outcome.
  set (σ1 := set_maps _ σ).
  rewrite searchConfigPath_resolve, (resolve_files σ σ1) by done.
  rewrite Hresolve. rewrite (ReadFile_files found σ σ1), Hread by done.
  simpl. rewrite validate_empty.
  - eexists _, _. split; [done|]. simpl.
    by rewrite lookup_total_insert_eq.
  - simpl. by rewrite lookup_total_insert_eq.
Qed.

(** ** Round trip *)



Lemma Get_result_view c name overrides σ :
  Get_result c name overrides σ
  = match view σ (Envs c) !! name with
    | None => (None, Some ErrEnvDoesNotExist)
    | Some None => (None, Some ErrEnvNotDefined)
    | Some (Some e) =>
        match mergeEnv Default name e (osEnv c :: overrides) with
        | inl r => (Some r, None)
        | inr err => (None, Some err)
        end
    end.
Proof.
  unfold Get_result.
  destruct (Get_cases c name overrides σ) as (r & σ' & -> & _ & _ & _ & Hcase).
  rewrite view_lookup.
  destruct ((maps σ !!! Envs c) !! name) as [[p|]|]; simpl.
  - destruct (mergeEnv _ _ _ _) as [e|err].
    + destruct Hcase as (q & -> & _ & ->). simpl.
      by rewrite lookup_total_insert_eq.
    + by destruct Hcase as [-> ->].
  - by destruct Hcase as [-> ->].
  - by destruct Hcase as [-> ->].
Qed.

Lemma Unmarshal_into_view decode contents m d σ :
  decode contents = (d, None) → allocated σ m →
  ∃ σ', Unmarshal_into decode contents m σ = (None, σ')
    ∧ view σ' m = d ∪ view σ m
    ∧ files σ' = files σ ∧ environ σ' = environ σ.
Proof.
  intros Hdec Hwf. unfold Unmarshal_into. rewrite Hdec.
  destruct (store_decoded_view m d σ Hwf) as (σ' & Hst & Hview & Hf & He).
  exists σ'. split; [|done]. unfold mbind, M_bind. by rewrite Hst.
Qed.

End store_facts.

(** ** The sample instance *)


Lemma sample_range_law : @RangeLaw sample.externals.
Proof. intros m. reflexivity. Qed.


(** ** The properties on the sample instance *)

Lemma Save_of_nil_entries_truncates_witness :
  ∃ σ', @Save sample.externals (sample.store "config.yml") sample.nil_world
        = (Some ErrNoEnvironmentsDefined, σ')
    ∧ files σ' !! "config.yml" = Some (RegularFile "").
Proof.
  apply (@Save_of_nil_entries_truncates sample.externals sample_range_law
           (sample.store "config.yml") sample.nil_world "previous").
  - intros k p Hk. apply elem_of_map_to_list in Hk.
    vm_compute in Hk. apply list_elem_of_singleton in Hk. by injection Hk.
  - discriminate.
  - reflexivity.
Defined.

Lemma Load_ignores_read_error_witness :
  ∃ conf σ', @Load sample.externals "app.yml" sample.unreadable_world
             = ((conf, None), σ')
    ∧ maps σ' !!! Envs conf = ∅
    ∧ envs σ' = envs sample.unreadable_world
    ∧ files σ' = files sample.unreadable_world.
Proof.
  apply (@Load_ignores_read_error sample.externals sample_range_law
           "app.yml" sample.unreadable_world "app.yml" "yml" ""
           (PathError "read" "app.yml" EISDIR)); reflexivity.
Defined.

(** C2, as stated, fails: [app.yml] exists and resolves, reading it fails
    because it is a directory, which is not the error of a missing file, and
    [Load] returns no error. *)
Lemma Load_read_error_not_propagated :
  searchConfigPath "app.yml" sample.unreadable_world
  = (("app.yml", "yml", None), sample.unreadable_world)
  ∧ ioutil_ReadFile "app.yml" sample.unreadable_world
    = (("", Some (PathError "read" "app.yml" EISDIR)), sample.unreadable_world)
  ∧ os_IsNotExist (PathError "read" "app.yml" EISDIR) = false
  ∧ (@Load sample.externals "app.yml" sample.unreadable_world).1.2 = None.
Proof. repeat split. Qed.



Lemma save_cleans_in_place_witness :
  ∃ err σ', @save sample.externals (sample.store "config.yml") "config.yml"
              sample.dev_world = (err, σ')
    ∧ @cleaned sample.externals (sample.store "config.yml") sample.dev_world σ'.
Proof.
  destruct (@save_cleans_in_place sample.externals sample_range_law
              (sample.store "config.yml") "config.yml" sample.dev_world)
    as (err & σ' & Hsave & Hclean & _).
  exists err, σ'. split; [exact Hsave | exact Hclean].
Defined.

Lemma validate_aggregates_witness :
  ∃ msg, @validate sample.externals (sample.store "config.yml")
           sample.invalid_world = (Some (Errorf msg), sample.invalid_world)
    ∧ contains msg "invalid timeout for /a"
    ∧ contains msg "invalid timeout for /b".
Proof.
  destruct (@validate_aggregates sample.externals sample_range_law
              (sample.store "config.yml") sample.invalid_world)
    as (errs & _ & _ & Hall & _).
  destruct (Hall "a" {| Directory := "/a"; Timeout := -1 |}
              (Errorf "invalid timeout for /a")) as (msg & Hmsg & Ha);
    [reflexivity..|].
  destruct (Hall "b" {| Directory := "/b"; Timeout := -5 |}
              (Errorf "invalid timeout for /b")) as (msg' & Hmsg' & Hb);
    [reflexivity..|].
  exists msg. split; [exact Hmsg|]. split; [exact Ha|].
  rewrite Hmsg in Hmsg'. injection Hmsg' as <-. exact Hb.
Defined.

Lemma save_keeps_default_entry_witness :
  ∃ err σ', @Save sample.externals (sample.store "config.yml")
              sample.default_world = (err, σ')
    ∧ err ≠ Some ErrNoEnvironmentsDefined
    ∧ (maps σ' !!! 1%positive) !! "dev" = Some (Some 1%positive).
Proof.
  destruct (@save_keeps_default_entry sample.externals sample_range_law
              (sample.store "config.yml") sample.default_world
              "dev" 1%positive)
    as [_ (err & σ' & HSave & Herr & Hkey & _)]; [reflexivity..|].
  exists err, σ'. split; [exact HSave|]. split; [exact Herr | exact Hkey].
Defined.

(** * Further properties of [conf.go] *)

(** ** The slice of [searchConfigPath] *)

Lemma length_Ext_le (filename : string) :
  (String.length (filepath_Ext filename) ≤ String.length filename)%nat.
Proof.
  unfold filepath_Ext.
  destruct (Ext_loop_suffix filename (String.length filename)) as (i & Hi & ->);
    [done|].
  rewrite length_slice_from by done. lia.
Qed.

Lemma resolve_found σ configPath found ext :
  resolve σ configPath = (found, ext, None) →
  ext ∈ supportedExts
  ∧ found = candidate configPath ext
  ∧ is_Some (files σ !! found)
  ∧ filepath_Ext (filepath_Base configPath) = "." ++ ext.
Proof.
  unfold resolve.
  destruct (List.find _ supportedExts) as [e|] eqn:Hfind; [|done].
  intros [= <- <-]. apply find_some in Hfind as [Hin Hm].
  apply bool_decide_eq_true in Hm as [Hex Hext].
  split; [by apply list_elem_of_In|]. by repeat split.
Qed.

Lemma resolve_error σ configPath found ext err :
  resolve σ configPath = (found, ext, Some err) →
  found = "" ∧ ext = "" ∧ err = os_ErrNotExist.
Proof.
  unfold resolve. destruct (List.find _ supportedExts); [done|].
  by intros [= <- <- <-].
Qed.

(** X7.  The slice [filename[0 : len(filename)-len(Ext(filename))]] of
    [searchConfigPath] is within bounds, and the name it yields followed by
    the extension is the file name again; so a successful resolution returns
    the path [Join(Dir(configPath), Base(configPath))] and the extension of
    the path asked for, without its dot. *)
Theorem searchConfigPath_slice_in_range (configPath : string) (σ : World) :
  let filename := filepath_Base configPath in
  (String.length (filepath_Ext filename) ≤ String.length filename)%nat
  ∧ substring 0 (String.length filename
                 - String.length (filepath_Ext filename)) filename
    ++ filepath_Ext filename = filename
  ∧ (∀ found ext σ',
       searchConfigPath configPath σ = ((found, ext, None), σ') →
       found = filepath_Join [filepath_Dir configPath; filepath_Base configPath]
       ∧ "." ++ ext = filepath_Ext (filepath_Base configPath)).
Proof.
  cbv zeta. split; [apply length_Ext_le|]. split; [apply name_Ext|].
  intros found ext σ'. rewrite searchConfigPath_resolve. intros [= Hres _].
  apply resolve_found in Hres as (_ & -> & _ & Hext).
  split; [by apply candidate_own_ext|done].
Qed.

(** X6.  A path whose extension is none of [.yml], [.yaml], [.json]
    (or that has no extension) never resolves, whatever files exist:
    [searchConfigPath] fails with [os.ErrNotExist]. *)
Theorem searchConfigPath_unsupported (configPath : string) (σ : World) :
  filepath_Ext (filepath_Base configPath) ∉ [".yml"; ".yaml"; ".json"] →
  searchConfigPath configPath σ = (("", "", Some os_ErrNotExist), σ).
Proof.
  intros Hext. rewrite searchConfigPath_resolve. f_equal.
  unfold resolve. cbn [supportedExts List.find].
  rewrite !bool_decide_false; [done|..].
  all: intros [_ Hm]; apply Hext; rewrite <- Hm; set_solver.
Qed.

Section more_store_facts.
Context `{Externals}.

(** ** Set *)

Lemma Set_named c name initial overrides σ :
  name ≠ "" → is_Some (maps σ !! Envs c) →
  ∃ e q, mergeEnv Default name initial (osEnv c :: overrides) = inl e
    ∧ envs σ !! q = None
    ∧ Set_ c name initial overrides σ
      = (Returned (Some q, Env_validate e),
         set_maps (λ h, <[Envs c := <[name := Some q]> (h !!! Envs c)]> h)
           (set_envs <[q := e]> σ)).
Proof.
  intros Hname [m Hm]. unfold Set_. rewrite decide_False by done.
  pose proof (newEnv_outcome name initial (osEnv c :: overrides) σ) as Hnew.
  rewrite mergeEnv_named in Hnew |- * by done.
  destruct Hnew as (q & Hq & Hfresh). eexists _, q. split; [done|].
  split; [done|]. unfold mbind, M_bind. rewrite Hq.
  unfold gets at 1. cbn [maps set_envs]. rewrite Hm.
  unfold map_store, modify, map_get, gets, env_load. simpl.
  rewrite lookup_total_insert_eq, lookup_insert_eq.
  unfold mret, M_ret. simpl. by rewrite lookup_total_insert_eq.
Qed.

Lemma Set_nil_map c name initial overrides σ :
  name ≠ "" → maps σ !! Envs c = None →
  ∃ e q, mergeEnv Default name initial (osEnv c :: overrides) = inl e
    ∧ envs σ !! q = None
    ∧ Set_ c name initial overrides σ
      = (Panicked "assignment to entry in nil map", set_envs <[q := e]> σ).
Proof.
  intros Hname Hm. unfold Set_. rewrite decide_False by done.
  pose proof (newEnv_outcome name initial (osEnv c :: overrides) σ) as Hnew.
  rewrite mergeEnv_named in Hnew |- * by done.
  destruct Hnew as (q & Hq & Hfresh). eexists _, q. split; [done|].
  split; [done|]. unfold mbind, M_bind. rewrite Hq.
  unfold gets at 1. cbn [maps set_envs]. by rewrite Hm.
Qed.

(** X1.  [Set] with a blank name fails with [InvalidEnvironmentName] and
    changes nothing.  With any other name, on a store whose map exists, it
    stores a new Env object, the merge of the initial value with [osEnv] and
    the overrides, under the name, and returns that pointer with the result
    of validating it: the entry is stored whether or not validation fails,
    and no other key, store, Env object or file changes.  On a store whose
    map is nil it panics, once the Env object is made, and no map or file
    changes. *)
Theorem Set_stores_entry (c : Conf) (name : string) (initial : Env)
    (overrides : list Env) (σ : World) :
  Set_ c "" initial overrides σ
  = (Returned (None, Some ErrInvalidEnvironmentName), σ)
  ∧ (name ≠ "" → is_Some (maps σ !! Envs c) →
     ∃ e q σ', mergeEnv Default name initial (osEnv c :: overrides) = inl e
       ∧ Set_ c name initial overrides σ
         = (Returned (Some q, Env_validate e), σ')
       ∧ envs σ !! q = None
       ∧ envs σ' = <[q := e]> (envs σ)
       ∧ maps σ' !!! Envs c = <[name := Some q]> (maps σ !!! Envs c)
       ∧ (∀ j, j ≠ Envs c → maps σ' !! j = maps σ !! j)
       ∧ files σ' = files σ)
  ∧ (name ≠ "" → maps σ !! Envs c = None →
     ∃ σ', Set_ c name initial overrides σ
           = (Panicked "assignment to entry in nil map", σ')
       ∧ maps σ' = maps σ ∧ envs σ ⊆ envs σ' ∧ files σ' = files σ).
Proof.
  split; [done|]. split.
  - intros Hname Hmap.
    destruct (Set_named c name initial overrides σ Hname Hmap)
      as (e & q & He & Hq & ->).
    eexists e, q, _. split; [done|]. split; [done|]. simpl.
    rewrite lookup_total_insert_eq. split_and!; try done.
    intros j Hj. by rewrite lookup_insert_ne.
  - intros Hname Hmap.
    destruct (Set_nil_map c name initial overrides σ Hname Hmap)
      as (e & q & He & Hq & ->).
    eexists. split; [done|]. simpl. split_and!; try done.
    by apply insert_subseteq.
Qed.

Lemma Set_view c name σ e q σ' :
  allocated σ (Envs c) →
  envs σ !! q = None →
  σ' = set_maps (λ h, <[Envs c := <[name := Some q]> (h !!! Envs c)]> h)
         (set_envs <[q := e]> σ) →
  view σ' (Envs c) = <[name := Some e]> (view σ (Envs c)).
Proof.
  intros Hwf Hq ->. rewrite view_map_store. simpl.
  rewrite lookup_total_insert_eq. f_equal. by apply view_env_alloc.
Qed.

(** X2.  After [Set] under a name, on a store whose map exists, [Get] of
    that name no longer fails with [EnvDoesNotExist] or [EnvNotDefined]: it
    returns the merge of the stored Env with [osEnv] and the overrides of
    the [Get]; [Get] of any other name returns what it returned before the
    [Set]. *)
Theorem Set_then_Get (c : Conf) (name : string) (initial : Env)
    (overrides : list Env) (σ : World) :
  name ≠ "" →
  is_Some (maps σ !! Envs c) →
  allocated σ (Envs c) →
  ∃ e r σ', mergeEnv Default name initial (osEnv c :: overrides) = inl e
    ∧ Set_ c name initial overrides σ = (Returned r, σ')
    ∧ (∀ ovs, Get_result c name ovs σ'
              = match mergeEnv Default name e (osEnv c :: ovs) with
                | inl merged => (Some merged, None)
                | inr err => (None, Some err)
                end)
    ∧ (∀ other ovs, other ≠ name →
         Get_result c other ovs σ' = Get_result c other ovs σ).
Proof.
  intros Hname Hmap Hwf.
  destruct (Set_named c name initial overrides σ Hname Hmap)
    as (e & q & He & Hq & HSet).
  eexists e, _, _. split; [done|]. split; [exact HSet|].
  pose proof (Set_view c name σ e q _ Hwf Hq eq_refl) as Hview.
  split.
  - intros ovs. by rewrite Get_result_view, Hview, lookup_insert_eq.
  - intros other ovs Hne.
    by rewrite !Get_result_view, Hview, lookup_insert_ne.
Qed.

(** X3.  The pointer that [Set] returns, on a store whose map exists, is
    the stored entry itself: after a later [save], the Env it points to has
    lost the fields that equal those of [Default]. *)
Theorem Set_pointer_sees_save `{!RangeLaw} (c : Conf) (name : string)
    (initial : Env) (overrides : list Env) (w : File) (σ : World) :
  name ≠ "" →
  is_Some (maps σ !! Envs c) →
  ∃ e q v σ1 err σ2,
    Set_ c name initial overrides σ = (Returned (Some q, v), σ1)
    ∧ envs σ1 !!! q = e
    ∧ save c w σ1 = (err, σ2)
    ∧ envs σ2 !!! q = suppress e.
Proof.
  intros Hname Hmap.
  destruct (Set_named c name initial overrides σ Hname Hmap)
    as (e & q & He & Hq & HSet).
  set (σ1 := set_maps _ _) in HSet.
  destruct (save_outcome c w σ1) as (err & σ2 & Hsave & Hc & _).
  exists e, q, (Env_validate e), σ1, err, σ2.
  split; [done|]. split; [apply lookup_total_insert_eq|]. split; [done|].
  destruct Hc as (_ & _ & Hsup & _).
  rewrite (Hsup name q).
  - f_equal. apply lookup_total_insert_eq.
  - unfold σ1. simpl. by rewrite lookup_total_insert_eq, lookup_insert_eq.
Qed.

(** ** New *)

(** X4.  [New] makes a store with a map object of its own, new and empty,
    with the path given and the process environment as [osEnv]; nothing
    that existed changes.  On the new store [Get] fails with
    [EnvDoesNotExist] for every name and validation finds no error. *)
Theorem New_store_is_empty `{!RangeLaw} (configPath : string) (σ : World) :
  ∃ c σ', New configPath σ = (c, σ')
    ∧ path c = configPath ∧ osEnv c = environ σ
    ∧ maps σ !! Envs c = None
    ∧ maps σ' = <[Envs c := ∅]> (maps σ)
    ∧ envs σ' = envs σ ∧ files σ' = files σ
    ∧ (∀ name ovs, Get c name ovs σ' = ((None, Some ErrEnvDoesNotExist), σ'))
    ∧ validate c σ' = (None, σ').
Proof.
  rewrite New_outcome. eexists _, _. split; [done|]. simpl.
  split_and!; try done.
  - apply (not_elem_of_dom (D := gset loc)), is_fresh.
  - intros name ovs. unfold Get, mbind, M_bind, map_get, gets. simpl.
    by rewrite lookup_total_insert_eq, lookup_empty.
  - apply validate_empty. simpl. by rewrite lookup_total_insert_eq.
Qed.

(** ** validate *)

(** X5.  Store-level validation changes nothing, and it returns no error
    exactly when every entry that is not nil passes Env-level validation. *)
Theorem validate_nil_iff `{!RangeLaw} (c : Conf) (σ : World) :
  (validate c σ).2 = σ
  ∧ ((validate c σ).1 = None
     ↔ ∀ name e, view σ (Envs c) !! name = Some (Some e) → Env_validate e = None).
Proof.
  rewrite validate_eq. split; [done|]. simpl.
  pose proof (failures_view σ (maps σ !!! Envs c)) as Hperm.
  fold (view σ (Envs c)) in Hperm. split.
  - intros Hnone name e Hlook.
    destruct (Env_validate e) as [err|] eqn:Hval; [|done].
    assert (Error err ∈ invalid_messages (view σ (Envs c))) as Hin.
    { apply list_elem_of_omap. exists (name, Some e).
      split; [by apply elem_of_map_to_list|].
      unfold invalid_message. simpl. by rewrite Hval. }
    rewrite <- Hperm in Hin.
    destruct (omap _ _); [by apply elem_of_nil in Hin|done].
  - intros Hall.
    assert (invalid_messages (view σ (Envs c)) = []) as Hnil.
    { apply elem_of_nil_inv. intros msg Hin.
      apply list_elem_of_omap in Hin as ([name [e|]] & Hin & Hmsg); [|done].
      apply elem_of_map_to_list in Hin. unfold invalid_message in Hmsg.
      simpl in Hmsg. by rewrite (Hall name e Hin) in Hmsg. }
    rewrite Hnil in Hperm. apply Permutation_nil_r in Hperm.
    by rewrite Hperm.
Qed.

(** ** Load *)

Lemma store_decoded_frame_list (m : loc) (l : list (string * option Env)) σ :
  ∃ σ', forM_ l (λ '(k, v),
          match v with
          | None => map_store m k None
          | Some e => p ← env_alloc e; map_store m k (Some p)
          end) σ = (tt, σ')
    ∧ envs σ ⊆ envs σ'
    ∧ (∀ j, j ≠ m → maps σ' !! j = maps σ !! j)
    ∧ files σ' = files σ ∧ environ σ' = environ σ.
Proof.
  revert σ. induction l as [|[k v] rest IH]; intros σ.
  - exists σ. by split_and!.
  - assert (∃ σ1, (match v with
                   | None => map_store m k None
                   | Some e => p ← env_alloc e; map_store m k (Some p)
                   end) σ = (tt, σ1)
              ∧ envs σ ⊆ envs σ1
              ∧ (∀ j, j ≠ m → maps σ1 !! j = maps σ !! j)
              ∧ files σ1 = files σ ∧ environ σ1 = environ σ)
      as (σ1 & Hstep & Henvs1 & Hmaps1 & Hf1 & He1).
    { destruct v as [e|].
      - destruct (env_alloc_fresh e σ) as (q & Hq & Hfresh).
        eexists. split.
        { unfold mbind, M_bind. rewrite Hq. reflexivity. }
        simpl. split_and!; try done.
        + by apply insert_subseteq.
        + intros j Hj. by rewrite lookup_insert_ne.
      - eexists. split; [reflexivity|]. simpl. split_and!; try done.
        intros j Hj. by rewrite lookup_insert_ne. }
    destruct (IH σ1) as (σ' & Hloop & Henvs & Hmaps & Hf & He).
    exists σ'. split.
    { cbn [forM_]. unfold mbind at 1, M_bind at 1. by rewrite Hstep. }
    split_and!; [by etrans| |congruence..].
    intros j Hj. by rewrite Hmaps, Hmaps1.
Qed.

Lemma Unmarshal_into_frame decode contents m σ :
  ∃ σ', Unmarshal_into decode contents m σ
        = (LibraryError <$> (decode contents).2, σ')
    ∧ envs σ ⊆ envs σ'
    ∧ (∀ j, j ≠ m → maps σ' !! j = maps σ !! j)
    ∧ files σ' = files σ ∧ environ σ' = environ σ.
Proof.
  unfold Unmarshal_into. destruct (decode contents) as [d err].
  destruct (store_decoded_frame_list m (map_to_list d) σ)
    as (σ' & Hloop & Hrest).
  exists σ'. split; [|done]. unfold mbind, M_bind, store_decoded.
  by rewrite Hloop.
Qed.

(** X8.  When path resolution fails, [Load] returns the blank store of
    [New] with the error [os.ErrNotExist]; it reads no file and changes
    nothing that existed. *)
Theorem Load_resolution_failure (configPath : string) (σ : World)
    (found ext : string) (err : error) :
  searchConfigPath configPath σ = ((found, ext, Some err), σ) →
  ∃ conf σ', Load configPath σ = ((conf, Some os_ErrNotExist), σ')
    ∧ maps σ !! Envs conf = None
    ∧ maps σ' = <[Envs conf := ∅]> (maps σ)
    ∧ envs σ' = envs σ ∧ files σ' = files σ.
Proof.
  rewrite searchConfigPath_resolve. intros [= Hres].
  destruct (resolve_error _ _ _ _ _ Hres) as (-> & -> & ->).
  unfold Load, mbind, M_bind. rewrite New_outcome.
  set (σ1 := set_maps _ σ).
  rewrite searchConfigPath_resolve, (resolve_files σ σ1), Hres by done.
  eexists _, _. split; [done|]. simpl. split_and!; try done.
  apply (not_elem_of_dom (D := gset loc)), is_fresh.
Qed.

Lemma resolve_ext_supported σ configPath found ext :
  resolve σ configPath = (found, ext, None) →
  ext = "yml" ∨ ext = "yaml" ∨ ext = "json".
Proof.
  intros (Hin & _)%resolve_found. unfold supportedExts in Hin.
  apply elem_of_cons in Hin as [->|Hin]; [by left|].
  apply elem_of_cons in Hin as [->|Hin]; [by right; left|].
  apply list_elem_of_singleton in Hin as ->. by right; right.
Qed.

(** What [Load] does once the path is resolved and the file is read. *)
Lemma Load_resolved configPath σ found ext contents :
  resolve σ configPath = (found, ext, None) →
  files σ !! found = Some (RegularFile contents) →
  Load configPath σ
  = (let conf := {| Envs := fresh (dom (maps σ)); osEnv := environ σ;
                    path := configPath |} in
     let σ1 := set_maps <[fresh (dom (maps σ)) := ∅]> σ in
     let decode := if bool_decide (ext = "json") then json_Unmarshal
                   else yaml_Unmarshal in
     let kind := if bool_decide (ext = "json") then "json" else "yaml" in
     let '(err, σ2) := Unmarshal_into decode contents (Envs conf) σ1 in
     match err with
     | Some err =>
         ((conf, Some (Errorf ("Invalid " ++ kind
                               ++ " found while loading the config file: "
                               ++ Error err))), σ2)
     | None => let '(v, σ3) := validate conf σ2 in ((conf, v), σ3)
     end).
Proof.
  intros Hres Hfile. unfold Load, mbind, M_bind. rewrite New_outcome.
  cbv zeta. set (σ1 := set_maps _ σ).
  rewrite searchConfigPath_resolve, (resolve_files σ σ1), Hres by done.
  rewrite (ReadFile_files found σ σ1) by done.
  unfold ioutil_ReadFile at 1, gets at 1. rewrite Hfile. simpl.
  destruct (resolve_ext_supported _ _ _ _ Hres) as [-> | [-> | ->]]; simpl.
  all: destruct (Unmarshal_into _ _ _ _) as [[err|] σ2]; [done|].
  all: by destruct (validate _ σ2).
Qed.

(** X9.  [Load] decodes by the extension that was resolved, [json] with
    the JSON decoder and [yml] or [yaml] with the YAML decoder.  When
    decoding succeeds the store holds the decoded mapping, and the error
    returned is the result of store-level validation of that store, which is
    returned with its entries also when validation fails. *)
Theorem Load_decodes_by_extension (configPath : string)
    (σ : World) (found ext contents : string) (d : gmap string (option Env)) :
  searchConfigPath configPath σ = ((found, ext, None), σ) →
  files σ !! found = Some (RegularFile contents) →
  (if bool_decide (ext = "json") then json_Unmarshal else yaml_Unmarshal)
    contents = (d, None) →
  ∃ conf σ', Load configPath σ = ((conf, (validate conf σ').1), σ')
    ∧ path conf = configPath
    ∧ view σ' (Envs conf) = d
    ∧ files σ' = files σ.
Proof.
  rewrite searchConfigPath_resolve. intros [= Hres] Hfile Hdec.
  rewrite (Load_resolved _ _ _ _ _ Hres Hfile). cbv zeta. cbn [Envs].
  set (l := fresh (dom (maps σ))). set (σ1 := set_maps _ σ).
  destruct (Unmarshal_into_view _ contents l d σ1 Hdec)
    as (σ2 & -> & Hview & Hf & _).
  { intros k q. simpl. by rewrite lookup_total_insert_eq, lookup_empty. }
  rewrite validate_eq. eexists _, _. split.
  { rewrite validate_eq. reflexivity. }
  cbn [Envs path]. split; [done|]. split; [|done].
  rewrite Hview. unfold view. simpl.
  rewrite lookup_total_insert_eq, fmap_empty. apply (right_id_L ∅ (∪)).
Qed.

(** X10.  When the decoder fails, [Load] returns an error whose message
    is [Invalid json found while loading the config file: ] or
    [Invalid yaml found while loading the config file: ], by the extension,
    followed by the decoder's message. *)
Theorem Load_decode_error (configPath : string) (σ : World)
    (found ext contents : string) (d : gmap string (option Env))
    (msg : string) :
  searchConfigPath configPath σ = ((found, ext, None), σ) →
  files σ !! found = Some (RegularFile contents) →
  (if bool_decide (ext = "json") then json_Unmarshal else yaml_Unmarshal)
    contents = (d, Some msg) →
  ∃ conf σ',
    Load configPath σ
    = ((conf, Some (Errorf ("Invalid "
                            ++ (if bool_decide (ext = "json")
                                then "json" else "yaml")
                            ++ " found while loading the config file: "
                            ++ msg))), σ')
    ∧ files σ' = files σ.
Proof.
  rewrite searchConfigPath_resolve. intros [= Hres] Hfile Hdec.
  rewrite (Load_resolved _ _ _ _ _ Hres Hfile). cbv zeta. cbn [Envs].
  set (l := fresh (dom (maps σ))). set (σ1 := set_maps _ σ).
  destruct (Unmarshal_into_frame
              (if bool_decide (ext = "json") then json_Unmarshal
               else yaml_Unmarshal) contents l σ1)
    as (σ2 & -> & _ & _ & Hf & _).
  rewrite Hdec. simpl. by eexists _, _.
Qed.

Lemma Load_unread configPath σ found ext :
  resolve σ configPath = (found, ext, None) →
  files σ !! found = Some DirectoryNode →
  ∃ conf v, Load configPath σ
            = ((conf, v), set_maps <[fresh (dom (maps σ)) := ∅]> σ).
Proof.
  intros Hres Hfile. unfold Load, mbind, M_bind. rewrite New_outcome.
  set (σ1 := set_maps _ σ).
  rewrite searchConfigPath_resolve, (resolve_files σ σ1), Hres by done.
  rewrite (ReadFile_files found σ σ1) by done.
  unfold ioutil_ReadFile at 1, gets at 1. rewrite Hfile. simpl.
  rewrite validate_eq. by eexists _, _.
Qed.

(** X12.  Whatever it returns, [Load] leaves the file system and the
    process environment as they were, and every map object and Env object
    that existed unchanged: it only adds objects. *)
Theorem Load_keeps_the_world (configPath : string) (σ : World) :
  ∃ r σ', Load configPath σ = (r, σ')
    ∧ files σ' = files σ ∧ environ σ' = environ σ
    ∧ maps σ ⊆ maps σ' ∧ envs σ ⊆ envs σ'.
Proof.
  set (l := fresh (dom (maps σ))).
  assert (maps σ !! l = None) as Hl
    by apply (not_elem_of_dom (D := gset loc)), is_fresh.
  set (σ1 := set_maps <[l := ∅]> σ).
  assert (∀ σ2, (∀ j, j ≠ l → maps σ2 !! j = maps σ1 !! j) →
                maps σ ⊆ maps σ2) as Hsub.
  { intros σ2 Hm. apply map_subseteq_spec. intros j x Hj.
    assert (j ≠ l) as Hne by congruence.
    rewrite Hm by done. simpl. by rewrite lookup_insert_ne. }
  destruct (resolve σ configPath) as [[found ext] [err|]] eqn:Hres.
  - unfold Load, mbind, M_bind. rewrite New_outcome. fold l σ1.
    rewrite searchConfigPath_resolve, (resolve_files σ σ1), Hres by done.
    eexists _, _. split; [done|]. split_and!; try done. by apply Hsub.
  - destruct (files σ !! found) as [[contents|]|] eqn:Hfile.
    + rewrite (Load_resolved _ _ _ _ _ Hres Hfile). cbv zeta. cbn [Envs].
      fold l σ1.
      destruct (Unmarshal_into_frame
                  (if bool_decide (ext = "json") then json_Unmarshal
                   else yaml_Unmarshal) contents l σ1)
        as (σ2 & -> & Henvs & Hmaps & Hf & He).
      destruct (LibraryError <$> _) as [e|].
      * eexists _, _. split; [done|]. split_and!; try done. by apply Hsub.
      * rewrite validate_eq. eexists _, _. split; [done|].
        split_and!; try done. by apply Hsub.
    + destruct (Load_unread _ _ _ _ Hres Hfile) as (conf & v & ->).
      fold l σ1. eexists _, _. split; [done|]. split_and!; try done.
      by apply Hsub.
    + apply resolve_found in Hres as (_ & _ & [n Hn] & _). congruence.
Qed.

(** X11.  After a [Load] that decoded the mapping [d], [Get] of a name
    depends on [d] alone: [EnvDoesNotExist] for a name that [d] lacks,
    [EnvNotDefined] for a name that [d] maps to null, and otherwise the merge
    of the decoded Env with the process environment and the overrides. *)
Theorem Load_then_Get (configPath : string) (σ : World)
    (found ext contents : string) (d : gmap string (option Env))
    (name : string) (ovs : list Env) :
  searchConfigPath configPath σ = ((found, ext, None), σ) →
  files σ !! found = Some (RegularFile contents) →
  (if bool_decide (ext = "json") then json_Unmarshal else yaml_Unmarshal)
    contents = (d, None) →
  ∃ conf err σ', Load configPath σ = ((conf, err), σ')
    ∧ Get_result conf name ovs σ'
      = match d !! name with
        | None => (None, Some ErrEnvDoesNotExist)
        | Some None => (None, Some ErrEnvNotDefined)
        | Some (Some e) =>
            match mergeEnv Default name e (environ σ :: ovs) with
            | inl merged => (Some merged, None)
            | inr err => (None, Some err)
            end
        end.
Proof.
  rewrite searchConfigPath_resolve. intros [= Hres] Hfile Hdec.
  rewrite (Load_resolved _ _ _ _ _ Hres Hfile). cbv zeta. cbn [Envs].
  set (l := fresh (dom (maps σ))). set (σ1 := set_maps _ σ).
  destruct (Unmarshal_into_view _ contents l d σ1 Hdec)
    as (σ2 & -> & Hview & Hf & _).
  { intros k q. simpl. by rewrite lookup_total_insert_eq, lookup_empty. }
  rewrite validate_eq. eexists _, _, _. split; [done|].
  rewrite Get_result_view. cbn [Envs osEnv]. rewrite Hview.
  unfold view. simpl.
  by rewrite lookup_total_insert_eq, fmap_empty, (right_id_L ∅ (∪)).
Qed.

(** ** Save *)

Lemma cleaned_view_idemp v : cleaned_view (cleaned_view v) = cleaned_view v.
Proof.
  apply map_eq. intros k. rewrite !cleaned_view_lookup.
  destruct (v !! k) as [[e|]|]; simpl; [|done..].
  by rewrite suppress_idemp.
Qed.

(** A [Save] that returns no error. *)
Lemma Save_success `{!RangeLaw} c σ σ' :
  Save c σ = (None, σ') →
  ∃ bytes,
    writable (files σ) (path c)
    ∧ yaml_Marshal (cleaned_view (view σ (Envs c))) = (bytes, None)
    ∧ cleaned_view (view σ (Envs c)) ≠ ∅
    ∧ view σ' (Envs c) = cleaned_view (view σ (Envs c))
    ∧ maps σ' !!! Envs c = filter (λ kv, kv.2 ≠ None) (maps σ !!! Envs c)
    ∧ files σ' = <[path c := RegularFile bytes]> (files σ).
Proof.
  intros HSave. pose proof (Save_success_writable c σ σ' HSave) as Hw.
  rewrite Save_opened in HSave by done.
  set (σ0 := set_files <[path c := RegularFile ""]> σ) in HSave.
  destruct (save_outcome c (path c) σ0) as (err & σ2 & Hsave2 & Hc & Hview & Hout).
  rewrite HSave in Hsave2. injection Hsave2 as <- <-.
  change (view σ0 (Envs c)) with (view σ (Envs c)) in *.
  destruct (decide (cleaned_view (view σ (Envs c)) = ∅)) as [|Hne];
    [by destruct Hout|].
  destruct (yaml_Marshal _) as [bytes [msg|]]; [by destruct Hout|].
  unfold File, σ0 in Hout. cbn [files set_files] in Hout.
  rewrite (lookup_insert_written _ _ _ Hw) in Hout. destruct Hout as [_ Hfiles].
  exists bytes. split_and!; try done.
  - by destruct Hc as (Hm & _).
  - rewrite Hfiles. by apply insert_insert_written.
Qed.

(** X13.  After a [Save] that returns no error, the target file holds
    exactly the YAML encoding of the cleaned mapping, whatever it held
    before, and no other file has changed: a name that does not lead to the
    target file leads to what it led to before. *)
Theorem Save_replaces_contents `{!RangeLaw} (c : Conf) (σ σ' : World) :
  Save c σ = (None, σ') →
  ∃ bytes,
    yaml_Marshal (view σ' (Envs c)) = (bytes, None)
    ∧ view σ' (Envs c) = cleaned_view (view σ (Envs c))
    ∧ files σ' !! path c = Some (RegularFile bytes)
    ∧ (∀ other, namei (files σ) other ≠ namei (files σ) (path c) →
         files σ' !! other = files σ !! other).
Proof.
  intros (bytes & Hw & Hm & _ & Hview & _ & Hfiles)%Save_success.
  exists bytes. rewrite Hview, Hfiles. split_and!; try done.
  - by apply lookup_insert_written.
  - intros other Hne. by apply lookup_insert_other.
Qed.

(** X14.  [Save] is idempotent: after a [Save] that returned no error, a
    second [Save] returns no error either and leaves the file system and the
    entries of the store as the first one left them. *)
Theorem Save_twice `{!RangeLaw} (c : Conf) (σ σ1 : World) :
  Save c σ = (None, σ1) →
  ∃ σ2, Save c σ1 = (None, σ2)
    ∧ files σ2 = files σ1
    ∧ maps σ2 !!! Envs c = maps σ1 !!! Envs c
    ∧ view σ2 (Envs c) = view σ1 (Envs c).
Proof.
  intros (bytes & Hw & Hm & Hne & Hview & Hmap & Hfiles)%Save_success.
  assert (files σ1 !! path c = Some (RegularFile bytes)) as Hfile
    by (rewrite Hfiles; by apply lookup_insert_written).
  pose proof (lookup_regular_writable _ _ _ Hfile) as Hw1.
  rewrite Save_opened by done.
  set (σ0 := set_files <[path c := RegularFile ""]> σ1).
  destruct (save_outcome c (path c) σ0) as (err & σ2 & -> & Hc & Hview2 & Hout).
  change (view σ0 (Envs c)) with (view σ1 (Envs c)) in *.
  rewrite Hview, cleaned_view_idemp in Hout, Hview2.
  rewrite decide_False, Hm in Hout by done.
  unfold File, σ0 in Hout. cbn [files set_files] in Hout.
  rewrite (lookup_insert_written _ _ _ Hw1) in Hout.
  destruct Hout as [-> Hfiles2].
  exists σ2. split; [done|]. split_and!.
  - rewrite Hfiles2, insert_insert_written by done.
    by apply insert_id_written.
  - destruct Hc as (Hm2 & _). rewrite Hm2.
    change (maps σ0) with (maps σ1). rewrite Hmap.
    apply map_filter_id. intros k x Hk.
    by apply map_lookup_filter_Some in Hk as [_ ?].
  - by rewrite Hview2, Hview.
Qed.

(** X15.  Once [Save] has opened its file, a name whose entry was nil is
    gone from the store, whatever [Save] returns: [Get] of that name failed
    with [EnvNotDefined] before the [Save] and fails with [EnvDoesNotExist]
    after it. *)
Theorem Save_forgets_nil_entries `{!RangeLaw} (c : Conf) (σ σ0 : World)
    (f : File) (name : string) :
  (maps σ !!! Envs c) !! name = Some None →
  file c σ = ((f, None), σ0) →
  ∃ err σ', Save c σ = (err, σ')
    ∧ (∀ ovs, Get c name ovs σ = ((None, Some ErrEnvNotDefined), σ))
    ∧ (∀ ovs, Get c name ovs σ' = ((None, Some ErrEnvDoesNotExist), σ')).
Proof.
  intros Hname Hfile. unfold Save, mbind, M_bind. rewrite Hfile.
  apply file_opened in Hfile as (_ & -> & _).
  destruct (save_outcome c f (set_files <[path c := RegularFile ""]> σ))
    as (err & σ' & Hsave & Hc & _).
  exists err, σ'. split; [done|]. split.
  - intros ovs. unfold Get, mbind, M_bind, map_get, gets. simpl.
    by rewrite Hname.
  - intros ovs. unfold Get, mbind, M_bind, map_get, gets. simpl.
    destruct Hc as (-> & _). cbn [maps set_files].
    rewrite (proj2 (map_lookup_filter_None _ _ name)); [done|].
    right. intros x Hx. rewrite Hname in Hx. injection Hx as <-.
    simpl. by intros ?.
Qed.

End more_store_facts.

(** ** The further properties on the sample instance *)

Lemma searchConfigPath_unsupported_witness :
  searchConfigPath "settings.toml"
    (sample.world {[ "settings.toml" := RegularFile "a" ]})
  = (("", "", Some os_ErrNotExist),
     sample.world {[ "settings.toml" := RegularFile "a" ]}).
Proof.
  apply searchConfigPath_unsupported. vm_compute.
  intros Hin. repeat (apply elem_of_cons in Hin as [Hin|Hin]; [discriminate|]).
  by apply elem_of_nil in Hin.
Defined.

Lemma Set_then_Get_witness :
  ∃ e r σ',
    mergeEnv (@Default sample.externals) "qa"
      {| Directory := "/srv"; Timeout := 0 |} [Env_zero] = inl e
    ∧ @Set_ sample.externals (sample.store "config.yml") "qa"
        {| Directory := "/srv"; Timeout := 0 |} [] sample.dev_world
      = (Returned r, σ')
    ∧ (∀ ovs, @Get_result sample.externals (sample.store "config.yml") "qa"
                ovs σ'
              = match mergeEnv (@Default sample.externals) "qa" e
                        (Env_zero :: ovs) with
                | inl merged => (Some merged, None)
                | inr err => (None, Some err)
                end)
    ∧ @Get_result sample.externals (sample.store "config.yml") "dev" [] σ'
      = @Get_result sample.externals (sample.store "config.yml") "dev" []
          sample.dev_world.
Proof.
  destruct (@Set_then_Get sample.externals (sample.store "config.yml") "qa"
              {| Directory := "/srv"; Timeout := 0 |} [] sample.dev_world)
    as (e & r & σ' & He & HSet & HGet & Hframe).
  - discriminate.
  - vm_compute. eauto.
  - intros k p Hk. apply elem_of_map_to_list in Hk. vm_compute in Hk.
    apply elem_of_cons in Hk as [Hk|Hk];
      [|apply list_elem_of_singleton in Hk].
    all: try discriminate.
    all: injection Hk as _ Hp; subst p; vm_compute; eauto.
  - exists e, r, σ'. split; [exact He|]. split; [exact HSet|].
    split; [exact HGet|]. apply Hframe. discriminate.
Defined.

Lemma Set_pointer_sees_save_witness :
  ∃ e q v σ1 err σ2,
    @Set_ sample.externals (sample.store "config.yml") "qa"
      {| Directory := "/work"; Timeout := 5 |} [] sample.dev_world
    = (Returned (Some q, v), σ1)
    ∧ envs σ1 !!! q = e
    ∧ @save sample.externals (sample.store "config.yml") "config.yml" σ1
      = (err, σ2)
    ∧ envs σ2 !!! q = @suppress sample.externals e.
Proof.
  apply (@Set_pointer_sees_save sample.externals sample_range_law).
  - discriminate.
  - vm_compute. eauto.
Defined.

Lemma New_store_is_empty_witness :
  ∃ c σ', New "config.yml" sample.dev_world = (c, σ')
    ∧ (∀ name ovs, @Get sample.externals c name ovs σ'
                   = ((None, Some ErrEnvDoesNotExist), σ')).
Proof.
  destruct (@New_store_is_empty sample.externals sample_range_law
              "config.yml" sample.dev_world)
    as (c & σ' & HNew & _ & _ & _ & _ & _ & _ & HGet & _).
  exists c, σ'. split; [exact HNew | exact HGet].
Defined.

Lemma validate_nil_iff_witness :
  (@validate sample.externals (sample.store "config.yml") sample.dev_world).1
  = None.
Proof.
  apply (@validate_nil_iff sample.externals sample_range_law
           (sample.store "config.yml") sample.dev_world).
  intros name e Hlook. apply elem_of_map_to_list in Hlook.
  vm_compute in Hlook.
  apply elem_of_cons in Hlook as [Hlook|Hlook]; [discriminate|].
  apply list_elem_of_singleton in Hlook. injection Hlook as _ Hlook.
  subst e. reflexivity.
Defined.

Lemma Load_resolution_failure_witness :
  ∃ conf σ', @Load sample.externals "config.yml" (sample.world ∅)
             = ((conf, Some os_ErrNotExist), σ')
    ∧ files σ' = sample.file_system ∅.
Proof.
  destruct (@Load_resolution_failure sample.externals "config.yml"
              (sample.world ∅) "" "" os_ErrNotExist)
    as (conf & σ' & HLoad & _ & _ & _ & Hf); [reflexivity|].
  exists conf, σ'. split; [exact HLoad | exact Hf].
Defined.

Lemma Load_decodes_by_extension_witness :
  ∃ conf σ',
    @Load sample.externals "config.json"
      (sample.world {[ "config.json" :=
         RegularFile
           (String "{" (sample.Marshal {[ "dev" := Some (mkEnv "/srv" 5) ]}).1) ]})
    = ((conf, (@validate sample.externals conf σ').1), σ')
    ∧ view σ' (Envs conf) = {[ "dev" := Some (mkEnv "/srv" 5) ]}.
Proof.
  destruct (@Load_decodes_by_extension sample.externals
              "config.json"
              (sample.world {[ "config.json" :=
                 RegularFile
                   (String "{"
                      (sample.Marshal {[ "dev" := Some (mkEnv "/srv" 5) ]}).1) ]})
              "config.json" "json"
              (String "{" (sample.Marshal {[ "dev" := Some (mkEnv "/srv" 5) ]}).1)
              {[ "dev" := Some (mkEnv "/srv" 5) ]})
    as (conf & σ' & HLoad & _ & Hview & _).
  - vm_compute. reflexivity.
  - vm_compute. reflexivity.
  - vm_compute. reflexivity.
  - exists conf, σ'. split; [exact HLoad | exact Hview].
Defined.

Lemma Load_then_Get_witness :
  ∃ conf err σ',
    @Load sample.externals "config.yml"
      (sample.world {[ "config.yml" :=
         RegularFile (sample.Marshal {[ "dev" := Some (mkEnv "/srv" 0);
                                        "old" := None ]}).1 ]})
    = ((conf, err), σ')
    ∧ @Get_result sample.externals conf "old" [] σ'
      = (None, Some ErrEnvNotDefined).
Proof.
  destruct (@Load_then_Get sample.externals
              "config.yml"
              (sample.world {[ "config.yml" :=
                 RegularFile
                   (sample.Marshal {[ "dev" := Some (mkEnv "/srv" 0);
                                      "old" := None ]}).1 ]})
              "config.yml" "yml"
              (sample.Marshal {[ "dev" := Some (mkEnv "/srv" 0);
                                 "old" := None ]}).1
              {[ "dev" := Some (mkEnv "/srv" 0); "old" := None ]}
              "old" [])
    as (conf & err & σ' & HLoad & HGet).
  - reflexivity.
  - reflexivity.
  - vm_compute. reflexivity.
  - exists conf, err, σ'. split; [exact HLoad|]. exact HGet.
Defined.

Lemma Load_decode_error_witness :
  ∃ conf σ',
    @Load sample.externals "config.json"
      (sample.world {[ "config.json" := RegularFile "dev: {}" ]})
    = ((conf, Some (Errorf
          ("Invalid json found while loading the config file: "
           ++ "invalid character looking for beginning of value"))),
       σ').
Proof.
  destruct (@Load_decode_error sample.externals "config.json"
              (sample.world {[ "config.json" := RegularFile "dev: {}" ]})
              "config.json" "json" "dev: {}" ∅
              "invalid character looking for beginning of value")
    as (conf & σ' & HLoad & _); [vm_compute; reflexivity..|].
  exists conf, σ'. exact HLoad.
Defined.

Lemma Save_replaces_contents_witness :
  ∃ bytes,
    files (@Save sample.externals (sample.store "config.yml")
             sample.dev_world).2 !! "config.yml"
    = Some (RegularFile bytes)
    ∧ @yaml_Marshal sample.externals
        (view (@Save sample.externals (sample.store "config.yml")
                 sample.dev_world).2 1%positive)
      = (bytes, None).
Proof.
  destruct (@Save_replaces_contents sample.externals sample_range_law
              (sample.store "config.yml") sample.dev_world
              (@Save sample.externals (sample.store "config.yml")
                 sample.dev_world).2)
    as (bytes & Hm & _ & Hfile & _); [vm_compute; reflexivity|].
  exists bytes. split; [exact Hfile | exact Hm].
Defined.

Lemma Save_twice_witness :
  ∃ σ2,
    @Save sample.externals (sample.store "config.yml")
      (@Save sample.externals (sample.store "config.yml") sample.dev_world).2
    = (None, σ2)
    ∧ files σ2
      = files (@Save sample.externals (sample.store "config.yml")
                 sample.dev_world).2.
Proof.
  destruct (@Save_twice sample.externals sample_range_law
              (sample.store "config.yml") sample.dev_world
              (@Save sample.externals (sample.store "config.yml")
                 sample.dev_world).2)
    as (σ2 & HSave & Hfiles & _); [vm_compute; reflexivity|].
  exists σ2. split; [exact HSave | exact Hfiles].
Defined.

Lemma Save_forgets_nil_entries_witness :
  ∃ err σ',
    @Save sample.externals (sample.store "config.yml") sample.dev_world
    = (err, σ')
    ∧ (∀ ovs, @Get sample.externals (sample.store "config.yml") "old" ovs σ'
              = ((None, Some ErrEnvDoesNotExist), σ')).
Proof.
  destruct (@Save_forgets_nil_entries sample.externals sample_range_law
              (sample.store "config.yml") sample.dev_world
              (set_files <["config.yml" := RegularFile ""]> sample.dev_world)
              "config.yml" "old")
    as (err & σ' & HSave & _ & HGet);
    [reflexivity | vm_compute; reflexivity |].
  exists err, σ'. split; [exact HSave | exact HGet].
Defined.

Lemma Set_stores_entry_witness :
  (∃ e q σ',
     mergeEnv (@Default sample.externals) "qa"
       {| Directory := "/srv"; Timeout := -1 |} [Env_zero] = inl e
     ∧ @Set_ sample.externals (sample.store "config.yml") "qa"
         {| Directory := "/srv"; Timeout := -1 |} [] sample.dev_world
       = (Returned (Some q, @Env_validate sample.externals e), σ')
     ∧ maps σ' !!! 1%positive
       = <["qa" := Some q]> (maps sample.dev_world !!! 1%positive))
  ∧ (∃ σ',
       @Set_ sample.externals (sample.store "config.yml") "qa"
         {| Directory := "/srv"; Timeout := -1 |} [] (sample.world ∅)
       = (Panicked "assignment to entry in nil map", σ')
       ∧ maps σ' = ∅).
Proof.
  split.
  - destruct (@Set_stores_entry sample.externals (sample.store "config.yml")
                "qa" {| Directory := "/srv"; Timeout := -1 |} []
                sample.dev_world) as (_ & Hnamed & _).
    destruct Hnamed as (e & q & σ' & He & HSet & _ & _ & Hmap & _);
      [discriminate | vm_compute; eauto |].
    exists e, q, σ'. split; [exact He|]. split; [exact HSet | exact Hmap].
  - destruct (@Set_stores_entry sample.externals (sample.store "config.yml")
                "qa" {| Directory := "/srv"; Timeout := -1 |} []
                (sample.world ∅)) as (_ & _ & Hnil).
    destruct Hnil as (σ' & HSet & Hmaps & _); [discriminate | reflexivity |].
    exists σ'. split; [exact HSet | exact Hmaps].
Defined.

Lemma searchConfigPath_slice_in_range_witness :
  "app.yml" = filepath_Join [filepath_Dir "conf/../app.yml";
                             filepath_Base "conf/../app.yml"]
  ∧ "." ++ "yml" = filepath_Ext (filepath_Base "conf/../app.yml").
Proof.
  destruct (searchConfigPath_slice_in_range "conf/../app.yml"
              (sample.world {[ "app.yml" := RegularFile "a" ]}))
    as (_ & _ & Hfound).
  apply (Hfound "app.yml" "yml"
           (sample.world {[ "app.yml" := RegularFile "a" ]})).
  reflexivity.
Defined.
